(** * drivechain: the Go wrapper around the drivechain connector

    A shallow embedding of [drivechain/drivechain.go]: the withdrawal codec
    ([GetWithdrawalData], [DecodeWithdrawal]), the deposit tracker
    ([GetDepositOutputs]), the block reconciler ([ConnectBlock]), the
    treasury check of [Init] and the BMM wrappers.

    Conventions.
    - A [uint64] is a [Z] in [0, 2^64); an [int64] a [Z] in [-2^63, 2^63);
      a [*big.Int] is a [Z]; conversions between them are written out.
    - A [byte] (and a [C.uchar]) is a [Byte.byte]; a [[]byte] or a fixed
      array of bytes is a [list byte].
    - A Go call that can return an error or panic returns a [result]. *)

From Stdlib Require Import ZArith Lia.
From Stdlib.Strings Require Import Byte.
From Bignums Require Import BigZ.
From stdpp Require Import base list strings gmap.

Local Open Scope Z_scope.

(** ** Outcomes of a Go call *)

Inductive result (A : Type) : Type :=
| Ok (a : A)            (* normal return, [err == nil] *)
| Err (msg : string)    (* a non-nil [error] is returned *)
| Panic (msg : string). (* the goroutine panics *)
Arguments Ok {A} a.
Arguments Err {A} msg.
Arguments Panic {A} msg.

#[global] Instance result_ret : MRet result := fun A a => Ok a.
#[global] Instance result_bind : MBind result := fun A B f m =>
  match m with
  | Ok a => f a
  | Err e => Err e
  | Panic p => Panic p
  end.

Definition is_Ok {A} (r : result A) : bool :=
  match r with Ok _ => true | _ => false end.

Definition is_Panic {A} (r : result A) : bool :=
  match r with Panic _ => true | _ => false end.

(** ** Go runtime primitives used by the wrapper *)

Module Go.

(** [byte(x)] and [C.uchar(x)]: keep the low 8 bits. *)
Definition byte_of_Z (z : Z) : byte :=
  default "000"%byte (Byte.of_N (Z.to_N (z mod 256))).

(** [uint64(b)] for a byte [b]. *)
Definition Z_of_byte (b : byte) : Z := Z.of_N (Byte.to_N b).

(** [uint64(x)]: wrap into [0, 2^64). *)
Definition uint64 (z : Z) : Z := z mod 2 ^ 64.

(** [int64(x)] for [x : uint64]: same bits, two's complement reading. *)
Definition int64 (z : Z) : Z :=
  let u := z mod 2 ^ 64 in
  if u <? 2 ^ 63 then u else u - 2 ^ 64.

(** [make([]byte, n)] *)
Definition make_bytes (n : nat) : list byte := replicate n "000"%byte.

(** [s[lo:hi]] on a slice whose capacity is its length. *)
Definition slice (s : list byte) (lo hi : nat) : result (list byte) :=
  if decide (lo ≤ hi ∧ hi ≤ length s)%nat
  then Ok (take (hi - lo) (drop lo s))
  else Panic "slice bounds out of range".

(** [a[i] = x] on an array or slice: bounds-checked store. *)
Definition store (a : list byte) (i : nat) (x : byte) : result (list byte) :=
  if decide (i < length a)%nat then Ok (<[i:=x]> a)
  else Panic "index out of range".

(** [for i, x := range src { dst[i] = x }], starting at index [i]. *)
Fixpoint range_copy (dst : list byte) (i : nat) (src : list byte)
  : result (list byte) :=
  match src with
  | [] => Ok dst
  | x :: src' => dst' ← store dst i x; range_copy dst' (S i) src'
  end.

(** [binary.BigEndian.PutUint64(b, v)] *)
Definition PutUint64 (b : list byte) (v : Z) : result (list byte) :=
  if decide (7 < length b)%nat then
    Ok (<[7%nat:=byte_of_Z v]>
       (<[6%nat:=byte_of_Z (v ≫ 8)]>
       (<[5%nat:=byte_of_Z (v ≫ 16)]>
       (<[4%nat:=byte_of_Z (v ≫ 24)]>
       (<[3%nat:=byte_of_Z (v ≫ 32)]>
       (<[2%nat:=byte_of_Z (v ≫ 40)]>
       (<[1%nat:=byte_of_Z (v ≫ 48)]>
       (<[0%nat:=byte_of_Z (v ≫ 56)]> b))))))))
  else Panic "index out of range".

(** [b[i]] read as [uint64(b[i])]. *)
Definition at64 (b : list byte) (i : nat) : Z :=
  from_option Z_of_byte 0 (b !! i).

(** [binary.BigEndian.Uint64(b)] *)
Definition Uint64 (b : list byte) : result Z :=
  if decide (7 < length b)%nat then
    Ok (Z.lor (Z.lor (Z.lor (Z.lor (Z.lor (Z.lor (Z.lor
          (at64 b 7)
          (uint64 (at64 b 6 ≪ 8)))
          (uint64 (at64 b 5 ≪ 16)))
          (uint64 (at64 b 4 ≪ 24)))
          (uint64 (at64 b 3 ≪ 32)))
          (uint64 (at64 b 2 ≪ 40)))
          (uint64 (at64 b 1 ≪ 48)))
          (uint64 (at64 b 0 ≪ 56)))
  else Panic "index out of range".

(** [big.NewInt(x)] for [x : int64]. *)
Definition big_NewInt (x : Z) : Z := x.

(** [z.Div(x, y)] of [math/big]: Euclidean division, the remainder is
    never negative; panics when [y] is zero. *)
Definition big_Div (x y : Z) : result Z :=
  if decide (y = 0) then Panic "division by zero"
  else if decide (0 < y) then Ok (x `div` y)
  else Ok (- (x `div` (- y))).

(** [x.Uint64()] of [math/big]: the low 64 bits of the magnitude. *)
Definition big_Uint64 (x : Z) : Z := Z.abs x mod 2 ^ 64.

End Go.

(** ** Constants *)

(** There are 10,000,000,000 Wei in one Satoshi. *)
Definition Satoshi : Z := 10000000000.

(** ** Withdrawal codec *)

Record Withdrawal : Type := mkWithdrawal {
  Address : list byte;   (* [20]C.uchar *)
  Amount : Z;            (* *big.Int *)
  Fee : Z                (* *big.Int *)
}.

(** The zero value [Withdrawal{}]. *)
Definition Withdrawal_zero : Withdrawal :=
  {| Address := Go.make_bytes 20; Amount := 0; Fee := 0 |}.

Section Codec.

(** The connector's address allocator: [C.get_new_mainchain_address()]
    returns a struct whose [address] field is an array of [C.uchar] and
    advances the connector's state. *)
Context {conn : Type}.
Variable get_new_mainchain_address : conn → list byte * conn.

Definition GetWithdrawalData (c : conn) (fee : Z) : result (list byte) * conn :=
  let feeBytes := Go.make_bytes 8 in
  let r_fee := Go.PutUint64 feeBytes fee in
  let addressBytes := Go.make_bytes 20 in
  let '(cAddress, c') := get_new_mainchain_address c in
  (feeBytes ← r_fee;
   addressBytes ← Go.range_copy addressBytes 0 cAddress;
   Ok (feeBytes ++ addressBytes), c').

End Codec.

Definition DecodeWithdrawal (value : Z) (data : list byte) : result Withdrawal :=
  if decide (length data ≠ 28%nat) then Err "wrong withdrawal data length" else
  feeBytes ← Go.slice data 0 8;
  if decide (length feeBytes ≠ 8%nat) then Panic "off by one error" else
  addressBytes ← Go.slice data 8 28;
  if decide (length addressBytes ≠ 20%nat) then Panic "off by one error" else
  address ← Go.range_copy (Go.make_bytes 20) 0 addressBytes;
  amount ← Go.big_Div value Satoshi;
  fee64 ← Go.Uint64 feeBytes;
  let fee := Go.big_NewInt (Go.int64 fee64) in
  Ok {| Address := address; Amount := amount; Fee := fee |}.

(** ** Strings, hexadecimal text and hashes *)

Module Text.

(** A Go string as the list of its bytes, and back. *)
Definition bytes_of_string (s : string) : list byte := String.list_byte_of_string s.
Definition string_of_bytes (bs : list byte) : string := String.string_of_list_byte bs.

(** One character of [strings.ToLower] on ASCII text. *)
Definition lower_byte (b : byte) : byte :=
  let n := Go.Z_of_byte b in
  if decide (65 ≤ n ≤ 90) then Go.byte_of_Z (n + 32) else b.

(** [strings.ToLower(s)] (the text handled here is ASCII). *)
Definition ToLower (s : string) : string :=
  string_of_bytes (lower_byte <$> bytes_of_string s).

(** The digit table ["0123456789abcdef"] of [encoding/hex]. *)
Definition hex_digit (n : Z) : byte :=
  if decide (n < 10) then Go.byte_of_Z (48 + n) else Go.byte_of_Z (87 + n).

(** [hex.Encode]: two lower-case digits per byte. *)
Definition hex_encode (bs : list byte) : list byte :=
  b ← bs; [hex_digit (Go.Z_of_byte b ≫ 4); hex_digit (Z.land (Go.Z_of_byte b) 15)].

(** [fromHexChar] of [encoding/hex]. *)
Definition from_hex_char (b : byte) : option Z :=
  let n := Go.Z_of_byte b in
  if decide (48 ≤ n ≤ 57) then Some (n - 48)
  else if decide (97 ≤ n ≤ 102) then Some (n - 97 + 10)
  else if decide (65 ≤ n ≤ 70) then Some (n - 65 + 10)
  else None.

(** [hex.DecodeString]: [None] on an odd length or a character that is
    no hexadecimal digit. *)
Fixpoint hex_decode (s : list byte) : option (list byte) :=
  match s with
  | [] => Some []
  | [_] => None
  | a :: b :: s' =>
      hi ← from_hex_char a;
      lo ← from_hex_char b;
      rest ← hex_decode s';
      Some (Go.byte_of_Z (Z.lor (hi ≪ 4) lo) :: rest)
  end.

(** [s[n:]] on a string. *)
Definition string_from (n : nat) (s : string) : result string :=
  if decide (n ≤ String.length s)%nat
  then Ok (string_of_bytes (drop n (bytes_of_string s)))
  else Panic "slice bounds out of range".

(** [common.Hash.Hex()]: ["0x"] and the 64 hexadecimal digits. *)
Definition Hash_Hex (h : list byte) : string :=
  "0x" +:+ string_of_bytes (hex_encode h).

End Text.

(** ** Keccak-256 *)

(** Modelled from the spec: the hash behind [crypto.Keccak256] and the
    address checksum is package code outside [drivechain.go]; the spec only
    says that an account address is derived from the key.  The definition
    is the legacy Keccak-256 sponge (rate 136 bytes, padding [0x01 .. 0x80])
    over Keccak-f[1600], lanes being 64-bit integers. *)
Module Keccak.

Definition mask64 : Z := Z.ones 64.

Definition rotl (x n : Z) : Z :=
  Z.land (Z.lor (x ≪ n) (x ≫ (64 - n))) mask64.

Definition not64 (x : Z) : Z := Z.lxor x mask64.

(** Round constants of the iota step. *)
Definition RC : list Z :=
  [0x0000000000000001; 0x0000000000008082; 0x800000000000808A;
   0x8000000080008000; 0x000000000000808B; 0x0000000080000001;
   0x8000000080008081; 0x8000000000008009; 0x000000000000008A;
   0x0000000000000088; 0x0000000080008009; 0x000000008000000A;
   0x000000008000808B; 0x800000000000008B; 0x8000000000008089;
   0x8000000000008003; 0x8000000000008002; 0x8000000000000080;
   0x000000000000800A; 0x800000008000000A; 0x8000000080008081;
   0x8000000000008080; 0x0000000080000001; 0x8000000080008008].

(** Rotation offsets of the rho step, at index [x + 5 * y]. *)
Definition RHO : list Z :=
  [ 0;  1; 62; 28; 27;
   36; 44;  6; 55; 20;
    3; 10; 43; 25; 39;
   41; 45; 15; 21;  8;
   18;  2; 61; 56; 14].

(** Lane [(x, y)] of a state of 25 lanes, coordinates taken modulo 5. *)
Definition lane (A : list Z) (x y : nat) : Z :=
  default 0 (A !! (x mod 5 + 5 * (y mod 5))%nat).

(** The coordinates in the order of the state list. *)
Definition coords : list (nat * nat) :=
  y ← seq 0 5; x ← seq 0 5; [(x, y)].

Definition theta (A : list Z) : list Z :=
  let C x := Z.lxor (Z.lxor (Z.lxor (Z.lxor
               (lane A x 0) (lane A x 1)) (lane A x 2)) (lane A x 3)) (lane A x 4) in
  let Cs := C <$> seq 0 5 in
  let Cn x := default 0 (Cs !! (x mod 5)%nat) in
  let D x := Z.lxor (Cn (x + 4)%nat) (rotl (Cn (x + 1)%nat) 1) in
  let Ds := D <$> seq 0 5 in
  (λ '(x, y), Z.lxor (lane A x y) (default 0 (Ds !! x))) <$> coords.

(** rho and pi together: lane [(x, y)] is rotated and moved to
    [(y, 2x + 3y)]; read from the target, the source of [(X, Y)] is
    [(X + 3Y, X)]. *)
Definition rho_pi (A : list Z) : list Z :=
  (λ '(X, Y),
     let x := ((X + 3 * Y) mod 5)%nat in
     let y := X in
     rotl (lane A x y) (default 0 (RHO !! (x + 5 * y)%nat))) <$> coords.

Definition chi (B : list Z) : list Z :=
  (λ '(x, y),
     Z.lxor (lane B x y)
            (Z.land (not64 (lane B (x + 1) y)) (lane B (x + 2) y))) <$> coords.

Definition iota (rc : Z) (A : list Z) : list Z :=
  match A with
  | a :: A' => Z.lxor a rc :: A'
  | [] => []
  end.

Definition round (A : list Z) (rc : Z) : list Z :=
  iota rc (chi (rho_pi (theta A))).

Definition keccak_f (A : list Z) : list Z := foldl round A RC.

(** A lane is eight bytes, least significant first. *)
Definition le_lane (bs : list byte) : Z :=
  foldr (λ b acc, Go.Z_of_byte b + 256 * acc) 0 bs.

Fixpoint lanes (n : nat) (bs : list byte) : list Z :=
  match n with
  | O => []
  | S n' => le_lane (take 8 bs) :: lanes n' (drop 8 bs)
  end.

Definition lane_bytes (z : Z) : list byte :=
  (λ i, Go.byte_of_Z (z ≫ (8 * Z.of_nat i))) <$> seq 0 8.

Definition rate : nat := 136.

Definition pad (msg : list byte) : list byte :=
  let q := (rate - length msg mod rate)%nat in
  if decide (q = 1%nat) then msg ++ ["129"%byte]
  else msg ++ ["001"%byte] ++ replicate (q - 2) "000"%byte ++ ["128"%byte].

Definition absorb_block (A : list Z) (blk : list byte) : list Z :=
  keccak_f (zip_with Z.lxor A (lanes 17 blk ++ replicate 8 0)).

Fixpoint absorb (n : nat) (A : list Z) (bs : list byte) : list Z :=
  match n with
  | O => A
  | S n' => absorb n' (absorb_block A (take rate bs)) (drop rate bs)
  end.

Definition Keccak256 (msg : list byte) : list byte :=
  let p := pad msg in
  let A := absorb (length p / rate) (replicate 25 0) p in
  take 32 (mjoin (lane_bytes <$> A)).

End Keccak.

(** ** The curve secp256k1 *)

(** Modelled from the spec: [crypto.HexToECDSA] computes the public key with
    the curve arithmetic of the crypto package, which is outside
    [drivechain.go].  The definition is scalar multiplication of the base
    point of secp256k1 (y^2 = x^3 + 7 over the prime field of order [P]),
    computed in Jacobian coordinates on machine-word integers. *)
Module Secp256k1.

Definition P : Z := 2 ^ 256 - 2 ^ 32 - 977.
Definition N : Z :=
  0xFFFFFFFFFFFFFFFFFFFFFFFFFFFFFFFEBAAEDCE6AF48A03BBFD25E8CD0364141.
Definition Gx : Z :=
  0x79BE667EF9DCBBAC55A06295CE870B07029BFCDB2DCE28D959F2815B16F81798.
Definition Gy : Z :=
  0x483ADA7726A3C4655DA4FBFC0E1108A8FD17B448A68554199C47D08FFB10D4B8.

Definition p : bigZ := BigZ.of_Z P.

Definition fmul (a b : bigZ) : bigZ := ((a * b) mod p)%bigZ.
Definition fadd (a b : bigZ) : bigZ := ((a + b) mod p)%bigZ.
Definition fsub (a b : bigZ) : bigZ := ((a - b) mod p)%bigZ.

(** A point in Jacobian coordinates; [z = 0] is the point at infinity. *)
Definition jpoint : Type := bigZ * bigZ * bigZ.

Definition jdouble (q : jpoint) : jpoint :=
  let '(x, y, z) := q in
  if (z =? 0)%bigZ then q else
  let a := fmul x x in
  let b := fmul y y in
  let c := fmul b b in
  let d := fmul 2 (fsub (fsub (fmul (fadd x b) (fadd x b)) a) c) in
  let e := fmul 3 a in
  let f := fmul e e in
  let x3 := fsub f (fmul 2 d) in
  let y3 := fsub (fmul e (fsub d x3)) (fmul 8 c) in
  let z3 := fmul 2 (fmul y z) in
  (x3, y3, z3).

(** Addition of the affine point [(x2, y2)] to a Jacobian point. *)
Definition jadd (q : jpoint) (x2 y2 : bigZ) : jpoint :=
  let '(x1, y1, z1) := q in
  if (z1 =? 0)%bigZ then (x2, y2, 1%bigZ) else
  let z1z1 := fmul z1 z1 in
  let u2 := fmul x2 z1z1 in
  let s2 := fmul y2 (fmul z1 z1z1) in
  let h := fsub u2 x1 in
  let r := fsub s2 y1 in
  if (h =? 0)%bigZ
  then (if (r =? 0)%bigZ then jdouble q else (0%bigZ, 1%bigZ, 0%bigZ))
  else
  let hh := fmul h h in
  let hhh := fmul h hh in
  let v := fmul x1 hh in
  let x3 := fsub (fsub (fmul r r) hhh) (fmul 2 v) in
  let y3 := fsub (fmul r (fsub v x3)) (fmul y1 hhh) in
  let z3 := fmul z1 h in
  (x3, y3, z3).

Fixpoint fpow (a : bigZ) (e : positive) : bigZ :=
  match e with
  | xH => a
  | xO e' => let t := fpow a e' in fmul t t
  | xI e' => let t := fpow a e' in fmul a (fmul t t)
  end.

(** Inverse in the field, by Fermat's little theorem. *)
Definition finv (a : bigZ) : bigZ :=
  match (P - 2)%Z with
  | Zpos e => fpow a e
  | _ => 0%bigZ
  end.

(** [k * G], most significant bit first. *)
Fixpoint smul (k : positive) : jpoint :=
  match k with
  | xH => (BigZ.of_Z Gx, BigZ.of_Z Gy, 1%bigZ)
  | xO k' => jdouble (smul k')
  | xI k' => jadd (jdouble (smul k')) (BigZ.of_Z Gx) (BigZ.of_Z Gy)
  end.

Definition to_affine (q : jpoint) : option (Z * Z) :=
  let '(x, y, z) := q in
  if (z =? 0)%bigZ then None else
  let zi := finv z in
  let zi2 := fmul zi zi in
  Some (BigZ.to_Z (fmul x zi2), BigZ.to_Z (fmul y (fmul zi zi2))).

(** [ScalarBaseMult]: the affine coordinates of [d * G]. *)
Definition ScalarBaseMult (d : Z) : option (Z * Z) :=
  match d with
  | Zpos k => to_affine (smul k)
  | _ => None
  end.

End Secp256k1.

(** ** Keys and account addresses *)

(** Modelled from the spec: [crypto.HexToECDSA], [crypto.PubkeyToAddress]
    and [common.Address.Hex] are package code outside [drivechain.go]; the
    spec says that [Init] derives a public account address from the private
    key.  They are modelled as the usual derivation: the key is 32 bytes of
    hexadecimal text, the public key is [d * G] on secp256k1, the address is
    the last 20 bytes of the Keccak-256 hash of the two coordinates, and its
    text form is the hexadecimal text with checksum capitals. *)
Module crypto.

(** An [ecdsa.PrivateKey] with its embedded public key. *)
Record PrivateKey : Type := mkPrivateKey { D : Z; X : Z; Y : Z }.

(** [new(big.Int).SetBytes(b)]: big-endian. *)
Definition be_value (bs : list byte) : Z :=
  foldl (λ acc b, acc * 256 + Go.Z_of_byte b) 0 bs.

(** A coordinate as 32 big-endian bytes. *)
Definition be_bytes32 (z : Z) : list byte :=
  (λ i, Go.byte_of_Z (z ≫ (8 * (31 - Z.of_nat i)))) <$> seq 0 32.

Definition HexToECDSA (hexkey : string) : result PrivateKey :=
  match Text.hex_decode (Text.bytes_of_string hexkey) with
  | None => Err "invalid hex data for private key"
  | Some b =>
      if decide (length b ≠ 32%nat) then Err "invalid length, need 256 bits" else
      let d := be_value b in
      if decide (Secp256k1.N ≤ d) then Err "invalid private key, >=N" else
      if decide (d ≤ 0) then Err "invalid private key, zero or negative" else
      match Secp256k1.ScalarBaseMult d with
      | None => Err "invalid private key"
      | Some (x, y) => Ok {| D := d; X := x; Y := y |}
      end
  end.

(** [PubkeyToAddress(p)]: [Keccak256(pubBytes[1:])[12:]]. *)
Definition PubkeyToAddress (k : PrivateKey) : list byte :=
  drop 12 (Keccak.Keccak256 (be_bytes32 (X k) ++ be_bytes32 (Y k))).

(** The checksum step of [Address.Hex]: digit [i] of the hexadecimal text
    becomes a capital when it is a letter and nibble [i] of the hash of
    the text is above 7. *)
Definition checksum_digit (hash : list byte) (i : nat) (c : byte) : byte :=
  let hashByte := Go.Z_of_byte (default "000"%byte (hash !! (i / 2)%nat)) in
  let nibble := if decide (i mod 2 = 0)%nat then hashByte ≫ 4
                else Z.land hashByte 15 in
  if decide (57 < Go.Z_of_byte c ∧ 7 < nibble)
  then Go.byte_of_Z (Go.Z_of_byte c - 32) else c.

(** [a.Hex()] for an address [a]. *)
Definition Address_Hex (a : list byte) : string :=
  let buf := Text.hex_encode a in
  let hash := Keccak.Keccak256 buf in
  "0x" +:+ Text.string_of_bytes (imap (checksum_digit hash) buf).

End crypto.

(** ** Initialisation: the treasury check *)

Definition THIS_SIDECHAIN : Z := 1.

Definition TREASURY_PRIVATE_KEY : string :=
  "deadbeefdeadbeefdeadbeefdeadbeefdeadbeefdeadbeefdeadbeefdeadbeef".

Definition TREASURY_ACCOUNT : string :=
  "0xc96aaa54e2d44c299564da76e1cd3184a2386b8d".

(** The address text that [Init] compares with the treasury account:
    [strings.ToLower(address.Hex())] for the address of the key. *)
Definition actualTreasuryAccount (privKey : crypto.PrivateKey) : string :=
  Text.ToLower (crypto.Address_Hex (crypto.PubkeyToAddress privKey)).

Section Init.

(** [C.init(dbPath, sidechain, rpcUser, rpcPassword)] sets up the
    connector. *)
Context {conn : Type}.
Variable c_init : string → Z → string → string → conn.

(** [Init] with its two string constants as arguments, to speak about a
    build in which they differ. *)
Definition Init_with (private_key account : string)
    (dbPath rpcUser rpcPassword : string) : result conn :=
  match crypto.HexToECDSA private_key with
  | Err e | Panic e => Panic ("can't get treasury private key: " +:+ e)
  | Ok privKey =>
      if decide (account ≠ actualTreasuryAccount privKey)
      then Panic ("treasury account: " +:+ account +:+
                  " != actual treasury account: %!s(MISSING)")
      else Ok (c_init dbPath THIS_SIDECHAIN rpcUser rpcPassword)
  end.

Definition Init : string → string → string → result conn :=
  Init_with TREASURY_PRIVATE_KEY TREASURY_ACCOUNT.

End Init.

(** ** Bytes as map keys *)

#[global] Instance byte_eq_decision : EqDecision byte := Byte.byte_eq_dec.

#[global] Instance byte_countable : Countable byte :=
  inj_countable Byte.to_N Byte.of_N Byte.of_to_N.

(** ** The structs of the C bindings *)

(** [C.Deposit]: a C string and an [unsigned long]. *)
Record CDeposit : Type := mkCDeposit {
  cd_address : string;
  cd_amount : Z
}.

(** [C.Withdrawal] *)
Record CWithdrawal : Type := mkCWithdrawal {
  cw_id : string;
  cw_address : list byte;
  cw_amount : Z;
  cw_fee : Z
}.

(** [C.Refund] *)
Record CRefund : Type := mkCRefund {
  cr_id : string
}.

(** ** Deposit tracker *)

Record RawDeposit : Type := mkRawDeposit {
  raw_address : string;
  raw_amount : Z          (* uint64 *)
}.

Record Deposit : Type := mkDeposit {
  Deposit_Address : list byte;   (* common.Address *)
  Deposit_Amount : Z             (* *big.Int *)
}.

Section Deposits.

Context {conn : Type}.
(** [C.get_deposit_outputs()]: the array of deposits the connector
    returns. *)
Variable get_deposit_outputs : conn → list CDeposit.
(** [common.HexToAddress] *)
Variable HexToAddress : string → list byte.

Definition getDepositOutputs (c : conn) : list RawDeposit :=
  (λ cDeposit,
     {| raw_address := cd_address cDeposit;
        raw_amount := Go.uint64 (cd_amount cDeposit) |})
  <$> get_deposit_outputs c.

Definition GetDepositOutputs (c : conn) : list Deposit :=
  (λ rawDeposit,
     {| Deposit_Address := HexToAddress (raw_address rawDeposit);
        Deposit_Amount := Go.big_NewInt (Go.int64 (raw_amount rawDeposit)) |})
  <$> getDepositOutputs c.

End Deposits.

(** ** Memory obtained from [C.malloc] *)

Module Cgo.

(** [C.size_t(x)] and [C.ulong(x)]: 64 bits. *)
Definition size_t (z : Z) : Z := z mod 2 ^ 64.
Definition ulong (z : Z) : Z := z mod 2 ^ 64.

(** A block of [bytes] bytes returned by [C.malloc], used through a
    pointer to an array of elements of [esize] bytes each.  [cells] holds
    what has been stored at each index, whether or not the index lies
    inside the block. *)
Record carray (A : Type) : Type := mkCarray {
  bytes : Z;
  esize : Z;
  cells : gmap nat A
}.
Arguments mkCarray {A} bytes esize cells.
Arguments bytes {A} c.
Arguments esize {A} c.
Arguments cells {A} c.

(** [C.malloc(C.size_t(n) * C.size_t(sizeof))], cast to [*[1<<30 - 1]T]. *)
Definition malloc {A} (n sizeof : Z) : carray A :=
  {| bytes := size_t (size_t n * size_t sizeof); esize := sizeof; cells := ∅ |}.

(** Element [i] lies inside the block. *)
Definition in_bounds {A} (a : carray A) (i : nat) : Prop :=
  (Z.of_nat i + 1) * esize a ≤ bytes a.

#[global] Instance in_bounds_dec {A} (a : carray A) i : Decision (in_bounds a i).
Proof. unfold in_bounds. apply _. Defined.

(** Every store made so far went inside the block. *)
Definition all_in_bounds {A} (a : carray A) : Prop :=
  ∀ i, is_Some (cells a !! i) → in_bounds a i.

(** Some store went outside the block. *)
Definition wrote_outside {A} (a : carray A) : Prop :=
  ∃ i, is_Some (cells a !! i) ∧ ¬ in_bounds a i.

(** [slice[i] = x] through the array pointer: Go checks [i] against the
    array type's length [1<<30 - 1] only, not against the block. *)
Definition store {A} (a : carray A) (i : nat) (x : A) : result (carray A) :=
  if decide (Z.of_nat i < 2 ^ 30 - 1)
  then Ok {| bytes := bytes a; esize := esize a; cells := <[i:=x]> (cells a) |}
  else Panic "index out of range".

(** [for i, x := range xs { slice[i] = x }] from index [i] on: the array
    as the loop leaves it, and whether the loop ran to its end. *)
Fixpoint fill {A} (a : carray A) (i : nat) (xs : list A) : carray A * result () :=
  match xs with
  | [] => (a, Ok ())
  | x :: xs' =>
      match store a i x with
      | Ok a' => fill a' (S i) xs'
      | Err e => (a, Err e)
      | Panic e => (a, Panic e)
      end
  end.

(** What the C side reads from [{ptr, len}]: elements [0 .. len-1]. *)
Definition read {A} (a : carray A) (len : nat) : list (option A) :=
  (λ i, cells a !! i) <$> seq 0 len.

End Cgo.

(** ** Block reconciler *)

(** The three blocks of [ConnectBlock], as far as they were allocated. *)
Record cmem : Type := mkCmem {
  depositsMemory : option (Cgo.carray CDeposit);
  withdrawalsMemory : option (Cgo.carray CWithdrawal);
  refundsMemory : option (Cgo.carray CRefund)
}.

Section ConnectBlock.

Context {conn : Type}.
(** [C.connect_block(deposits, withdrawals, refunds, just_checking)]; an
    element the wrapper never stored reads as [None]. *)
Variable connect_block :
  conn → list (option CDeposit) → list (option CWithdrawal) →
  list (option CRefund) → bool → bool * conn.
(** [unsafe.Sizeof] of the three C structs. *)
Variables sizeof_Deposit sizeof_Withdrawal sizeof_Refund : Z.

Definition marshal_deposit (deposit : Deposit) : CDeposit :=
  {| cd_address :=
       Text.ToLower (crypto.Address_Hex (Deposit_Address deposit));
     cd_amount := Cgo.ulong (Go.big_Uint64 (Deposit_Amount deposit)) |}.

Definition marshal_withdrawal (idw : list byte * Withdrawal) : CWithdrawal :=
  {| cw_id := Text.Hash_Hex idw.1;
     cw_address := Address idw.2;
     cw_amount := Cgo.ulong (Go.big_Uint64 (Amount idw.2));
     cw_fee := Cgo.ulong (Go.big_Uint64 (Fee idw.2)) |}.

Definition marshal_refund (r : list byte) : CRefund :=
  {| cr_id := Text.Hash_Hex r |}.

(** [withdrawals] is a Go map from transaction hashes; its elements are
    visited in the order of [map_to_list]. *)
Definition ConnectBlock (c : conn) (deposits : list Deposit)
    (withdrawals : gmap (list byte) Withdrawal) (refunds : list (list byte))
    (just_checking : bool) : cmem * result (bool * conn) :=
  let depositsMemory :=
    Cgo.malloc (Z.of_nat (length deposits)) sizeof_Deposit in
  let '(depositsSlice, r) :=
    Cgo.fill depositsMemory 0 (marshal_deposit <$> deposits) in
  match r with
  | Err e | Panic e => (mkCmem (Some depositsSlice) None None, Panic e)
  | Ok _ =>
  let withdrawalsMemory :=
    Cgo.malloc (Z.of_nat (size withdrawals)) sizeof_Withdrawal in
  let '(withdrawalsSlice, r) :=
    Cgo.fill withdrawalsMemory 0 (marshal_withdrawal <$> map_to_list withdrawals) in
  match r with
  | Err e | Panic e =>
      (mkCmem (Some depositsSlice) (Some withdrawalsSlice) None, Panic e)
  | Ok _ =>
  let refundsMemory :=
    Cgo.malloc (Z.of_nat (size withdrawals)) sizeof_Refund in
  let '(refundsSlice, r) :=
    Cgo.fill refundsMemory 0 (marshal_refund <$> refunds) in
  let mem :=
    mkCmem (Some depositsSlice) (Some withdrawalsSlice) (Some refundsSlice) in
  match r with
  | Err e | Panic e => (mem, Panic e)
  | Ok _ =>
      (mem,
       Ok (connect_block c
             (Cgo.read depositsSlice (length deposits))
             (Cgo.read withdrawalsSlice (size withdrawals))
             (Cgo.read refundsSlice (length refunds))
             just_checking))
  end end end.

End ConnectBlock.

(** ** BMM wrappers *)

(** [type BmmState uint] with its three constants. *)
Definition BmmState : Type := Z.
Definition Succeded : BmmState := 0.
Definition Failed : BmmState := 1.
Definition Pending : BmmState := 2.

(** The two fields of [types.Header] that [AttemptBmm] reads: the header's
    hash and the previous mainchain block hash. *)
Record Header : Type := mkHeader {
  Header_Hash : list byte;
  PrevMainBlockHash : list byte
}.

Section Bmm.

Context {conn : Type}.
Variable attempt_bmm : conn → string → string → Z → conn.
Variable confirm_bmm : conn → Z * conn.
Variable verify_bmm : conn → string → string → bool.

Definition attemptBmm (c : conn) (criticalHash prevMainBlockHash : string)
    (amount : Z) : conn :=
  attempt_bmm c criticalHash prevMainBlockHash (Cgo.ulong amount).

Definition AttemptBmm (c : conn) (header : Header) (amount : Z) : result conn :=
  criticalHash ← Text.string_from 2 (Text.Hash_Hex (Header_Hash header));
  prev ← Text.string_from 2 (Text.Hash_Hex (PrevMainBlockHash header));
  Ok (attemptBmm c criticalHash prev amount).

Definition ConfirmBmm (c : conn) : BmmState * conn := confirm_bmm c.

Definition verifyBmm (c : conn) (mainBlockHash criticalHash : string) : bool :=
  verify_bmm c mainBlockHash criticalHash.

Definition VerifyBmm (c : conn) (mainBlockHash criticalHash : list byte)
  : result bool :=
  h ← Text.string_from 2 (Text.Hash_Hex mainBlockHash);
  k ← Text.string_from 2 (Text.Hash_Hex criticalHash);
  Ok (verifyBmm c h k).

End Bmm.

(** ** The connector behind the C bindings *)

(** Modelled from the spec: the functions [connect_block], [attempt_bmm],
    [confirm_bmm] and [verify_bmm] live in the native library, of which only
    the calls are in [drivechain.go].  The state and the operations below
    follow the spec's description of the block reconciler (section 4.5) and
    of the BMM coordinator (section 4.7). *)
Module Connector.

(** What the connector sees of the mainchain. *)
Record mainchain : Type := mkMainchain {
  (** confirmed outputs paid to this sidechain: address and amount *)
  confirmed_outputs : gset (string * Z);
  (** the blocks, each with the hash of its predecessor *)
  blocks : gmap string string;
  (** the critical hashes each block commits to *)
  commitments : gset (string * string)
}.

(** The most recent BMM attempt: critical hash, previous mainchain block
    hash, bid, and how far it got. *)
Record attempt : Type := mkAttempt {
  at_critical : string;
  at_prev : string;
  at_amount : Z;
  at_state : BmmState
}.

Record state : Type := mkState {
  chain : mainchain;
  consumed_deposits : gset (string * Z);
  queued_withdrawals : gmap string CWithdrawal;
  failed_withdrawals : gset string;
  bmm : option attempt
}.

Definition deposit_key (d : CDeposit) : string * Z := (cd_address d, cd_amount d).

(** Every element was stored by the caller. *)
Fixpoint present {A} (xs : list (option A)) : option (list A) :=
  match xs with
  | [] => Some []
  | None :: _ => None
  | Some x :: xs' => (x ::.) <$> present xs'
  end.

(** Validation of a batch: well-formed withdrawals, no duplicate
    withdrawal ids, refunds of withdrawals that failed, deposits that are
    confirmed mainchain outputs not consumed before. *)
Definition valid (st : state) (ds : list CDeposit) (ws : list CWithdrawal)
    (rs : list CRefund) : Prop :=
  Forall (λ w, length (cw_address w) = 20%nat) ws
  ∧ NoDup (cw_id <$> ws)
  ∧ Forall (λ w, queued_withdrawals st !! cw_id w = None) ws
  ∧ Forall (λ r, cr_id r ∈ failed_withdrawals st) rs
  ∧ NoDup (deposit_key <$> ds)
  ∧ Forall (λ d, deposit_key d ∈ confirmed_outputs (chain st)
                 ∧ deposit_key d ∉ consumed_deposits st) ds.

#[global] Instance valid_dec st ds ws rs : Decision (valid st ds ws rs).
Proof. unfold valid. apply _. Defined.

(** Commit of a valid batch: deposits become consumed, withdrawals are
    queued, refunded withdrawals are released. *)
Definition commit (st : state) (ds : list CDeposit) (ws : list CWithdrawal)
    (rs : list CRefund) : state :=
  {| chain := chain st;
     consumed_deposits := consumed_deposits st ∪ list_to_set (deposit_key <$> ds);
     queued_withdrawals :=
       foldr (λ w q, <[cw_id w := w]> q) (queued_withdrawals st) ws;
     failed_withdrawals := failed_withdrawals st ∖ list_to_set (cr_id <$> rs);
     bmm := bmm st |}.

Definition connect_block (st : state) (deposits : list (option CDeposit))
    (withdrawals : list (option CWithdrawal)) (refunds : list (option CRefund))
    (just_checking : bool) : bool * state :=
  match present deposits, present withdrawals, present refunds with
  | Some ds, Some ws, Some rs =>
      if decide (valid st ds ws rs)
      then (true, if just_checking then st else commit st ds ws rs)
      else (false, st)
  | _, _, _ => (false, st)
  end.

(** [attempt]: a new attempt starts as pending. *)
Definition attempt_bmm (st : state) (criticalHash prevMainBlockHash : string)
    (amount : Z) : state :=
  {| chain := chain st;
     consumed_deposits := consumed_deposits st;
     queued_withdrawals := queued_withdrawals st;
     failed_withdrawals := failed_withdrawals st;
     bmm := Some (mkAttempt criticalHash prevMainBlockHash amount Pending) |}.

(** The blocks of the mainchain that follow block [prev]. *)
Definition successors (m : mainchain) (prev : string) : list string :=
  (map_to_list (filter (λ kv, kv.2 = prev) (blocks m))).*1.

(** [confirm]: a pending attempt succeeds once a successor of its block
    commits to its critical hash, fails once a successor exists that does
    not, and stays pending otherwise. *)
Definition resolve (m : mainchain) (a : attempt) : BmmState :=
  if decide (at_state a ≠ Pending) then at_state a
  else if decide (Exists (λ b, (b, at_critical a) ∈ commitments m)
                         (successors m (at_prev a))) then Succeded
  else if decide (successors m (at_prev a) = []) then Pending
  else Failed.

Definition confirm_bmm (st : state) : Z * state :=
  match bmm st with
  | None => (Failed, st)
  | Some a =>
      let s := resolve (chain st) a in
      (s, {| chain := chain st;
             consumed_deposits := consumed_deposits st;
             queued_withdrawals := queued_withdrawals st;
             failed_withdrawals := failed_withdrawals st;
             bmm := Some (mkAttempt (at_critical a) (at_prev a) (at_amount a) s) |})
  end.

(** [verify]: the mainchain block commits to the critical hash. *)
Definition verify_bmm (st : state) (mainBlockHash criticalHash : string) : bool :=
  bool_decide ((mainBlockHash, criticalHash) ∈ commitments (chain st)).

End Connector.

(** ** The wrapper over the modelled connector *)

(** The calls a process makes on its connector between two verifications. *)
Inductive call : Type :=
| CallAttemptBmm (header : Header) (amount : Z)
| CallConfirmBmm
| CallVerifyBmm (mainBlockHash criticalHash : list byte)
| CallConnectBlock (deposits : list Deposit)
    (withdrawals : gmap (list byte) Withdrawal) (refunds : list (list byte))
    (just_checking : bool).

Section Process.

Variables sizeof_Deposit sizeof_Withdrawal sizeof_Refund : Z.

Definition ConnectBlock_model :=
  ConnectBlock Connector.connect_block
    sizeof_Deposit sizeof_Withdrawal sizeof_Refund.

(** One call, as it changes the connector's state (a call that panics
    leaves it as it was). *)
Definition step (st : Connector.state) (k : call) : Connector.state :=
  match k with
  | CallAttemptBmm header amount =>
      match AttemptBmm Connector.attempt_bmm st header amount with
      | Ok st' => st'
      | _ => st
      end
  | CallConfirmBmm => (ConfirmBmm Connector.confirm_bmm st).2
  | CallVerifyBmm _ _ => st
  | CallConnectBlock deposits withdrawals refunds just_checking =>
      match (ConnectBlock_model st deposits withdrawals refunds just_checking).2 with
      | Ok (_, st') => st'
      | _ => st
      end
  end.

Definition run (st : Connector.state) (ks : list call) : Connector.state :=
  foldl step st ks.

End Process.

(** ** Unit conversion *)

(** Modelled from the spec: [toSidechainUnits(satoshi) = satoshi * 10^10];
    the multiplication is made by the callers of this package, not in
    [drivechain.go]. *)
Definition toSidechainUnits (satoshi : Z) : Z := satoshi * Satoshi.

(** The conversion from Wei to Satoshi made by [DecodeWithdrawal]:
    [amount.Div(value, Satoshi)]. *)
Definition toMainchainUnits (sidechainUnits : Z) : result Z :=
  Go.big_Div sidechainUnits Satoshi.

(** The unsigned integer that a list of bytes denotes, most significant
    byte first. *)
Definition be_uint (bs : list byte) : Z :=
  foldl (λ acc b, acc * 256 + Go.Z_of_byte b) 0 bs.

(** A connector that knows one confirmed output and nothing else. *)
Definition one_output_state : Connector.state :=
  {| Connector.chain :=
       {| Connector.confirmed_outputs := {[ ("0xaa", 7) ]};
          Connector.blocks := ∅;
          Connector.commitments := ∅ |};
     Connector.consumed_deposits := ∅;
     Connector.queued_withdrawals := ∅;
     Connector.failed_withdrawals := ∅;
     Connector.bmm := None |}.

(** ** Creating a deposit *)

Section CreateDeposit.

Context {conn : Type}.
(** [C.create_deposit(address, amount, fee)] *)
Variable create_deposit : conn → string → Z → Z → bool * conn.

Definition CreateDeposit (c : conn) (address : list byte) (amount fee : Z)
  : bool * conn :=
  let cAddress := Text.ToLower (crypto.Address_Hex address) in
  let cAmount := Cgo.ulong amount in
  let cFee := Cgo.ulong fee in
  create_deposit c cAddress cAmount cFee.

End CreateDeposit.

(** A lower-case hexadecimal digit. *)
Definition is_lower_hex (c : byte) : Prop :=
  48 ≤ Go.Z_of_byte c ≤ 57 ∨ 97 ≤ Go.Z_of_byte c ≤ 102.

(** The key pair that belongs to [TREASURY_PRIVATE_KEY]. *)
Definition treasury_key : crypto.PrivateKey :=
  {| crypto.D :=
       0xdeadbeefdeadbeefdeadbeefdeadbeefdeadbeefdeadbeefdeadbeefdeadbeef;
     crypto.X :=
       0xc6b754b20826eb925e052ee2c25285b162b51fdca732bcf67e39d647fb6830ae;
     crypto.Y :=
       0xb651944a574a362082a77e3f2b5d9223eb54d7f2f76846522bf75f3bedb8178e |}.

(** * Properties *)

(** ** Bytes and 64-bit integers *)

Lemma Z_of_byte_range (b : byte) : 0 ≤ Go.Z_of_byte b < 256.
Proof.
  unfold Go.Z_of_byte. pose proof (Byte.to_N_bounded b) as H.
  split; [apply N2Z.is_nonneg|]. apply N.lt_succ_r in H.
  change 256 with (Z.of_N 256). apply N2Z.inj_lt. exact H.
Qed.

Lemma Z_of_byte_of_Z (z : Z) : Go.Z_of_byte (Go.byte_of_Z z) = z mod 256.
Proof.
  unfold Go.Z_of_byte, Go.byte_of_Z.
  assert (Hr : 0 ≤ z mod 256 < 256) by (apply Z.mod_pos_bound; lia).
  destruct (Byte.of_N (Z.to_N (z mod 256))) as [b|] eqn:E.
  - simpl. apply Byte.to_of_N in E. rewrite E. apply Z2N.id. lia.
  - apply Byte.of_N_None_iff in E. lia.
Qed.

Lemma byte_of_Z_of_byte (b : byte) : Go.byte_of_Z (Go.Z_of_byte b) = b.
Proof.
  unfold Go.byte_of_Z. pose proof (Z_of_byte_range b) as H.
  rewrite Z.mod_small by exact H. unfold Go.Z_of_byte.
  rewrite N2Z.id, Byte.of_to_N. reflexivity.
Qed.

Lemma int64_small (u : Z) : 0 ≤ u < 2 ^ 63 → Go.int64 u = u.
Proof.
  intros H. unfold Go.int64. rewrite Z.mod_small by lia.
  destruct (Z.ltb_spec u (2 ^ 63)); lia.
Qed.

Lemma int64_large (u : Z) : 2 ^ 63 ≤ u < 2 ^ 64 → Go.int64 u = u - 2 ^ 64.
Proof.
  intros H. unfold Go.int64. rewrite Z.mod_small by lia.
  destruct (Z.ltb_spec u (2 ^ 63)); lia.
Qed.

(** A shifted value and a value below the shift do not overlap, so that
    their bitwise or is their sum. *)
Lemma lor_shiftl_add (lo hi k : Z) :
  0 ≤ k → 0 ≤ lo < 2 ^ k → Z.lor lo (hi ≪ k) = lo + hi * 2 ^ k.
Proof.
  intros Hk Hlo.
  assert (Hland : Z.land lo (hi ≪ k) = 0).
  { apply Z.bits_inj'. intros n Hn. rewrite Z.land_spec, Z.bits_0.
    destruct (Z.lt_ge_cases n k) as [Hlt|Hge].
    - rewrite Z.shiftl_spec_low by lia. apply andb_false_r.
    - replace (Z.testbit lo n) with false; [reflexivity|].
      symmetry. destruct (Z.eq_dec lo 0) as [->|Hne]; [apply Z.bits_0|].
      apply Z.bits_above_log2; [lia|].
      apply Z.log2_lt_pow2; [lia|]. 
      assert (2 ^ k ≤ 2 ^ n) by (apply Z.pow_le_mono_r; lia). lia. }
  rewrite <- Z.lxor_lor by exact Hland.
  rewrite <- Z.add_nocarry_lxor by exact Hland.
  rewrite Z.shiftl_mul_pow2 by lia. reflexivity.
Qed.

Lemma digit_step (f k k' : Z) :
  0 ≤ k → k' = k + 8 → f ≫ k = 256 * (f ≫ k') + (f ≫ k) mod 256.
Proof.
  intros Hk ->. rewrite <- (Z.shiftr_shiftr f k 8) by lia.
  rewrite (Z.shiftr_div_pow2 (f ≫ k) 8) by lia.
  change (2 ^ 8) with 256. apply Z.div_mod. lia.
Qed.

(** [Uint64] reads eight bytes as the big-endian number they denote. *)
Lemma Uint64_be (b0 b1 b2 b3 b4 b5 b6 b7 : byte) :
  Go.Uint64 [b0; b1; b2; b3; b4; b5; b6; b7]
  = Ok (be_uint [b0; b1; b2; b3; b4; b5; b6; b7]).
Proof.
  unfold Go.Uint64. simpl length. rewrite decide_True by lia. f_equal.
  unfold Go.at64, be_uint. simpl.
  pose proof (Z_of_byte_range b0). pose proof (Z_of_byte_range b1).
  pose proof (Z_of_byte_range b2). pose proof (Z_of_byte_range b3).
  pose proof (Z_of_byte_range b4). pose proof (Z_of_byte_range b5).
  pose proof (Z_of_byte_range b6). pose proof (Z_of_byte_range b7).
  unfold Go.uint64.
  rewrite !Z.shiftl_mul_pow2 by lia.
  rewrite !Z.mod_small by lia.
  rewrite <- !Z.shiftl_mul_pow2 by lia.
  rewrite (lor_shiftl_add _ (Go.Z_of_byte b6) 8) by lia.
  rewrite (lor_shiftl_add _ (Go.Z_of_byte b5) 16) by lia.
  rewrite (lor_shiftl_add _ (Go.Z_of_byte b4) 24) by lia.
  rewrite (lor_shiftl_add _ (Go.Z_of_byte b3) 32) by lia.
  rewrite (lor_shiftl_add _ (Go.Z_of_byte b2) 40) by lia.
  rewrite (lor_shiftl_add _ (Go.Z_of_byte b1) 48) by lia.
  rewrite (lor_shiftl_add _ (Go.Z_of_byte b0) 56) by lia.
  lia.
Qed.

Lemma be_uint_8_range (bs : list byte) :
  length bs = 8%nat → 0 ≤ be_uint bs < 2 ^ 64.
Proof.
  intros Hl.
  destruct bs as [|b0 [|b1 [|b2 [|b3 [|b4 [|b5 [|b6 [|b7 [|? ?]]]]]]]]];
    simpl in Hl; try lia.
  unfold be_uint. simpl.
  pose proof (Z_of_byte_range b0). pose proof (Z_of_byte_range b1).
  pose proof (Z_of_byte_range b2). pose proof (Z_of_byte_range b3).
  pose proof (Z_of_byte_range b4). pose proof (Z_of_byte_range b5).
  pose proof (Z_of_byte_range b6). pose proof (Z_of_byte_range b7).
  lia.
Qed.

(** [PutUint64] on a fresh 8-byte buffer. *)
Lemma PutUint64_make (v : Z) :
  Go.PutUint64 (Go.make_bytes 8) v
  = Ok [Go.byte_of_Z (v ≫ 56); Go.byte_of_Z (v ≫ 48); Go.byte_of_Z (v ≫ 40);
        Go.byte_of_Z (v ≫ 32); Go.byte_of_Z (v ≫ 24); Go.byte_of_Z (v ≫ 16);
        Go.byte_of_Z (v ≫ 8); Go.byte_of_Z v].
Proof. reflexivity. Qed.

(** The eight bytes written for [v] denote [v]. *)
Lemma be_uint_put (v : Z) :
  0 ≤ v < 2 ^ 64 →
  be_uint [Go.byte_of_Z (v ≫ 56); Go.byte_of_Z (v ≫ 48); Go.byte_of_Z (v ≫ 40);
           Go.byte_of_Z (v ≫ 32); Go.byte_of_Z (v ≫ 24); Go.byte_of_Z (v ≫ 16);
           Go.byte_of_Z (v ≫ 8); Go.byte_of_Z v] = v.
Proof.
  intros Hv. unfold be_uint. simpl. rewrite !Z_of_byte_of_Z.
  pose proof (digit_step v 0 8 ltac:(lia) eq_refl) as H0.
  pose proof (digit_step v 8 16 ltac:(lia) eq_refl) as H1.
  pose proof (digit_step v 16 24 ltac:(lia) eq_refl) as H2.
  pose proof (digit_step v 24 32 ltac:(lia) eq_refl) as H3.
  pose proof (digit_step v 32 40 ltac:(lia) eq_refl) as H4.
  pose proof (digit_step v 40 48 ltac:(lia) eq_refl) as H5.
  pose proof (digit_step v 48 56 ltac:(lia) eq_refl) as H6.
  pose proof (digit_step v 56 64 ltac:(lia) eq_refl) as H7.
  rewrite Z.shiftr_0_r in H0.
  assert (H8 : v ≫ 64 = 0).
  { rewrite Z.shiftr_div_pow2 by lia. apply Z.div_small. lia. }
  lia.
Qed.

(** ** The copy loop and slicing *)

Lemma range_copy_ok (src dst : list byte) (i : nat) :
  (i + length src ≤ length dst)%nat →
  Go.range_copy dst i src
  = Ok (take i dst ++ src ++ drop (i + length src) dst).
Proof.
  revert dst i. induction src as [|x src IH]; intros dst i Hlen; simpl in *.
  - rewrite Nat.add_0_r, take_drop. reflexivity.
  - unfold Go.store. rewrite decide_True by lia. simpl.
    rewrite IH by (rewrite length_insert; lia).
    rewrite (take_S_r _ i x) by (apply list_lookup_insert_eq; lia).
    rewrite take_insert_ge by lia.
    rewrite drop_insert_lt by lia.
    rewrite <- app_assoc. simpl.
    rewrite Nat.add_succ_r. reflexivity.
Qed.

(** Copying a full array's worth of bytes into a fresh array gives those
    bytes. *)
Lemma range_copy_full (src : list byte) (n : nat) :
  length src = n → Go.range_copy (Go.make_bytes n) 0 src = Ok src.
Proof.
  intros Hn. rewrite range_copy_ok.
  - simpl. rewrite drop_ge, app_nil_r; [reflexivity|].
    unfold Go.make_bytes. rewrite length_replicate. lia.
  - unfold Go.make_bytes. rewrite length_replicate. lia.
Qed.

(** A source longer than the array makes the loop panic. *)
Lemma range_copy_overflow (src dst : list byte) (i : nat) :
  (length dst < i + length src)%nat →
  (i ≤ length dst)%nat →
  Go.range_copy dst i src = Panic "index out of range".
Proof.
  revert dst i. induction src as [|x src IH]; intros dst i Hlen Hi; simpl in *.
  - lia.
  - unfold Go.store. destruct (decide (i < length dst)%nat) as [Hlt|Hge]; simpl.
    + apply IH; rewrite length_insert; lia.
    + reflexivity.
Qed.

Lemma slice_ok (s : list byte) (lo hi : nat) :
  (lo ≤ hi ≤ length s)%nat →
  Go.slice s lo hi = Ok (take (hi - lo) (drop lo s)).
Proof. intros H. unfold Go.slice. rewrite decide_True by lia. reflexivity. Qed.

(** ** [DecodeWithdrawal] *)

Lemma big_Div_Satoshi (v : Z) : Go.big_Div v Satoshi = Ok (v `div` Satoshi).
Proof. reflexivity. Qed.

(** What [DecodeWithdrawal] returns on 28 bytes. *)
Lemma DecodeWithdrawal_28 (value : Z) (data : list byte) :
  length data = 28%nat →
  DecodeWithdrawal value data
  = Ok {| Address := drop 8 data;
          Amount := value `div` Satoshi;
          Fee := Go.int64 (be_uint (take 8 data)) |}.
Proof.
  intros Hlen. unfold DecodeWithdrawal.
  rewrite decide_False by lia.
  rewrite !slice_ok by lia. simpl mbind. cbn beta iota.
  change (8 - 0)%nat with 8%nat. change (drop 0 data) with data.
  unfold mbind, result_bind.
  rewrite decide_False by (rewrite length_take; lia).
  rewrite decide_False by (rewrite length_take, length_drop; lia).
  assert (Htake : take 20 (drop 8 data) = drop 8 data).
  { apply take_ge. rewrite length_drop. lia. }
  rewrite Htake.
  rewrite range_copy_full by (rewrite length_drop; lia).
  destruct data as [|b0 [|b1 [|b2 [|b3 [|b4 [|b5 [|b6 [|b7 rest]]]]]]]];
    simpl in Hlen; try lia.
  change (take 8 (b0 :: b1 :: b2 :: b3 :: b4 :: b5 :: b6 :: b7 :: rest))
    with ([b0; b1; b2; b3; b4; b5; b6; b7] ++ take 0 rest).
  rewrite take_0, app_nil_r. rewrite Uint64_be. reflexivity.
Qed.

Lemma DecodeWithdrawal_wrong_length (value : Z) (data : list byte) :
  length data ≠ 28%nat →
  DecodeWithdrawal value data = Err "wrong withdrawal data length".
Proof. intros H. unfold DecodeWithdrawal. rewrite decide_True by exact H. reflexivity. Qed.

(** C3: for every value and every data whose length is not 28 (27 zero
    bytes and the empty slice among them) [DecodeWithdrawal] returns the
    error "wrong withdrawal data length"; for data of length 28 the two
    slices have lengths 8 and 20, so the two "off by one error" panics are
    not reached; and no input makes [DecodeWithdrawal] panic. *)
Theorem DecodeWithdrawal_length_guard (value : Z) (data : list byte) :
  (length data ≠ 28%nat →
     DecodeWithdrawal value data = Err "wrong withdrawal data length")
  ∧ DecodeWithdrawal value (replicate 27 "000"%byte)
    = Err "wrong withdrawal data length"
  ∧ DecodeWithdrawal value [] = Err "wrong withdrawal data length"
  ∧ (length data = 28%nat →
       (∃ feeBytes, Go.slice data 0 8 = Ok feeBytes ∧ length feeBytes = 8%nat)
       ∧ (∃ addressBytes,
            Go.slice data 8 28 = Ok addressBytes ∧ length addressBytes = 20%nat)
       ∧ is_Ok (DecodeWithdrawal value data) = true)
  ∧ is_Panic (DecodeWithdrawal value data) = false.
Proof.
  split; [apply DecodeWithdrawal_wrong_length|].
  split; [reflexivity|]. split; [reflexivity|]. split.
  - intros Hlen. split; [|split].
    + eexists. split; [apply slice_ok; lia|].
      rewrite length_take, length_drop. lia.
    + eexists. split; [apply slice_ok; lia|].
      rewrite length_take, length_drop. lia.
    + rewrite DecodeWithdrawal_28 by exact Hlen. reflexivity.
  - destruct (decide (length data = 28%nat)) as [Hlen|Hlen].
    + rewrite DecodeWithdrawal_28 by exact Hlen. reflexivity.
    + rewrite DecodeWithdrawal_wrong_length by exact Hlen. reflexivity.
Qed.

Lemma DecodeWithdrawal_length_guard_witness :
  DecodeWithdrawal 5 (replicate 3 "001"%byte) = Err "wrong withdrawal data length"
  ∧ is_Ok (DecodeWithdrawal 5 (replicate 28 "001"%byte)) = true.
Proof.
  pose proof (DecodeWithdrawal_length_guard 5 (replicate 3 "001"%byte)) as H3.
  pose proof (DecodeWithdrawal_length_guard 5 (replicate 28 "001"%byte)) as H28.
  split.
  - apply (proj1 H3). vm_compute. lia.
  - apply (proj1 (proj2 (proj2 (proj2 H28)))). reflexivity.
Defined.

(** C2: the unit conversion is an exact floor inverse: for every
    non-negative [s] and every [r] with [0 <= r < 10^10], converting
    [toSidechainUnits s] and [toSidechainUnits s + r] to mainchain units
    gives [s]; this is the amount [DecodeWithdrawal] computes from such a
    value. *)
Theorem unit_conversion_floor_inverse (s r : Z) :
  0 ≤ s → 0 ≤ r < 10 ^ 10 →
  toMainchainUnits (toSidechainUnits s) = Ok s
  ∧ toMainchainUnits (toSidechainUnits s + r) = Ok s
  ∧ ∀ data, length data = 28%nat →
      ∃ w, DecodeWithdrawal (toSidechainUnits s + r) data = Ok w ∧ Amount w = s.
Proof.
  intros Hs Hr. change (10 ^ 10) with Satoshi in Hr.
  assert (Hdiv : (toSidechainUnits s + r) `div` Satoshi = s).
  { unfold toSidechainUnits. rewrite Z.div_add_l by (unfold Satoshi; lia).
    rewrite Z.div_small by exact Hr. lia. }
  split; [|split].
  - unfold toMainchainUnits, toSidechainUnits. rewrite big_Div_Satoshi.
    rewrite Z.div_mul by (unfold Satoshi; lia). reflexivity.
  - unfold toMainchainUnits. rewrite big_Div_Satoshi, Hdiv. reflexivity.
  - intros data Hlen. eexists. split; [apply DecodeWithdrawal_28, Hlen|].
    simpl. exact Hdiv.
Qed.

Lemma unit_conversion_floor_inverse_witness :
  toMainchainUnits (toSidechainUnits 12345) = Ok 12345
  ∧ toMainchainUnits (toSidechainUnits 12345 + 9999999999) = Ok 12345
  ∧ ∀ data, length data = 28%nat →
      ∃ w, DecodeWithdrawal (toSidechainUnits 12345 + 9999999999) data = Ok w
           ∧ Amount w = 12345.
Proof. apply (unit_conversion_floor_inverse 12345 9999999999); lia. Defined.

(** ** [GetWithdrawalData] *)

(** C8: for every fee [GetWithdrawalData] returns 28 bytes: the first 8 are
    the fee as an unsigned big-endian integer, the remaining 20 are the
    bytes of the address that the connector has just allocated; the
    connector is left in the state after the allocation. *)
Theorem GetWithdrawalData_layout {conn : Type}
    (get_new_mainchain_address : conn → list byte * conn) (c : conn) (fee : Z) :
  0 ≤ fee < 2 ^ 64 →
  length (get_new_mainchain_address c).1 = 20%nat →
  ∃ data,
    GetWithdrawalData get_new_mainchain_address c fee
    = (Ok data, (get_new_mainchain_address c).2)
    ∧ length data = 28%nat
    ∧ take 8 data
      = [Go.byte_of_Z (fee ≫ 56); Go.byte_of_Z (fee ≫ 48);
         Go.byte_of_Z (fee ≫ 40); Go.byte_of_Z (fee ≫ 32);
         Go.byte_of_Z (fee ≫ 24); Go.byte_of_Z (fee ≫ 16);
         Go.byte_of_Z (fee ≫ 8); Go.byte_of_Z fee]
    ∧ be_uint (take 8 data) = fee
    ∧ drop 8 data = (get_new_mainchain_address c).1.
Proof.
  intros Hfee Haddr. unfold GetWithdrawalData.
  destruct (get_new_mainchain_address c) as [cAddress c'] eqn:E.
  simpl in Haddr. rewrite PutUint64_make.
  rewrite range_copy_full by exact Haddr.
  eexists. split; [reflexivity|].
  split; [rewrite length_app, Haddr; reflexivity|].
  split; [reflexivity|].
  split; [apply be_uint_put, Hfee|reflexivity].
Qed.

Lemma GetWithdrawalData_layout_witness :
  ∃ data,
    GetWithdrawalData (λ n : nat, (replicate 20 "007"%byte, S n)) 4%nat 1000
    = (Ok data, 5%nat)
    ∧ length data = 28%nat
    ∧ take 8 data
      = ["000"; "000"; "000"; "000"; "000"; "000"; "003"; "232"]%byte
    ∧ be_uint (take 8 data) = 1000
    ∧ drop 8 data = replicate 20 "007"%byte.
Proof.
  apply (GetWithdrawalData_layout
           (λ n : nat, (replicate 20 "007"%byte, S n)) 4%nat 1000).
  - lia.
  - reflexivity.
Defined.

(** ** Encoding followed by decoding *)

(** What decoding returns on the bytes that encoding produced. *)
Lemma decode_encode {conn : Type}
    (get_new_mainchain_address : conn → list byte * conn) (c : conn)
    (fee value : Z) :
  0 ≤ fee < 2 ^ 64 →
  length (get_new_mainchain_address c).1 = 20%nat →
  ∃ data,
    (GetWithdrawalData get_new_mainchain_address c fee).1 = Ok data
    ∧ DecodeWithdrawal value data
      = Ok {| Address := (get_new_mainchain_address c).1;
              Amount := value `div` Satoshi;
              Fee := Go.int64 fee |}.
Proof.
  intros Hfee Haddr.
  destruct (GetWithdrawalData_layout get_new_mainchain_address c fee Hfee Haddr)
    as (data & Hdata & Hlen & _ & Hbe & Hdrop).
  exists data. rewrite Hdata. split; [reflexivity|].
  rewrite DecodeWithdrawal_28 by exact Hlen. rewrite Hbe, Hdrop. reflexivity.
Qed.

(** The address bytes survive the round trip, and so does a fee below
    [2^63]. *)
Lemma roundtrip_address_and_small_fee {conn : Type}
    (get_new_mainchain_address : conn → list byte * conn) (c : conn)
    (fee value : Z) :
  0 ≤ fee < 2 ^ 63 →
  length (get_new_mainchain_address c).1 = 20%nat →
  ∃ data w,
    (GetWithdrawalData get_new_mainchain_address c fee).1 = Ok data
    ∧ DecodeWithdrawal value data = Ok w
    ∧ Address w = (get_new_mainchain_address c).1
    ∧ Fee w = fee.
Proof.
  intros Hfee Haddr.
  destruct (decode_encode get_new_mainchain_address c fee value) as (data & Hd & Hw);
    [lia|exact Haddr|].
  eexists _, _. split; [exact Hd|]. split; [exact Hw|]. simpl.
  split; [reflexivity|]. apply int64_small, Hfee.
Qed.

(** A fee of [2^63] or more comes back lowered by [2^64]. *)
Lemma roundtrip_large_fee {conn : Type}
    (get_new_mainchain_address : conn → list byte * conn) (c : conn)
    (fee value : Z) :
  2 ^ 63 ≤ fee < 2 ^ 64 →
  length (get_new_mainchain_address c).1 = 20%nat →
  ∃ data w,
    (GetWithdrawalData get_new_mainchain_address c fee).1 = Ok data
    ∧ DecodeWithdrawal value data = Ok w
    ∧ Fee w = fee - 2 ^ 64.
Proof.
  intros Hfee Haddr.
  destruct (decode_encode get_new_mainchain_address c fee value) as (data & Hd & Hw);
    [lia|exact Haddr|].
  eexists _, _. split; [exact Hd|]. split; [exact Hw|]. simpl.
  apply int64_large, Hfee.
Qed.

(** C1, at the fee [2^64 - 1]: encoding succeeds, decoding the result
    succeeds with the 20 address bytes recovered, but the fee that comes
    back is [-1], and [ConnectBlock] would hand the connector the fee 1. *)
Theorem fee_roundtrip_at_max_fee :
  ∃ data w,
    (GetWithdrawalData (λ n : nat, (replicate 20 "007"%byte, S n)) 0%nat
       (2 ^ 64 - 1)).1 = Ok data
    ∧ DecodeWithdrawal 0 data = Ok w
    ∧ Address w = replicate 20 "007"%byte
    ∧ Fee w = -1
    ∧ Fee w ≠ 2 ^ 64 - 1
    ∧ cw_fee (marshal_withdrawal ([], w)) = 1.
Proof.
  eexists _, _. split; [reflexivity|]. split; [reflexivity|].
  split; [reflexivity|]. split; [reflexivity|]. split; [discriminate|reflexivity].
Qed.

(** The scenario of the spec: the value [12345 * 10^10] with fee bytes for
    1000 decodes to amount 12345, fee 1000 and the last 20 bytes. *)
Lemma DecodeWithdrawal_scenario (address : list byte) :
  length address = 20%nat →
  DecodeWithdrawal (12345 * 10 ^ 10)
    (["000"; "000"; "000"; "000"; "000"; "000"; "003"; "232"]%byte ++ address)
  = Ok {| Address := address; Amount := 12345; Fee := 1000 |}.
Proof.
  intros Hlen. rewrite DecodeWithdrawal_28 by (rewrite length_app, Hlen; reflexivity).
  reflexivity.
Qed.

(** Fee bytes whose first bit is clear decode to the unsigned big-endian
    number they denote. *)
Lemma DecodeWithdrawal_fee_unsigned (value : Z) (data : list byte) :
  length data = 28%nat →
  be_uint (take 8 data) < 2 ^ 63 →
  DecodeWithdrawal value data
  = Ok {| Address := drop 8 data;
          Amount := value `div` Satoshi;
          Fee := be_uint (take 8 data) |}.
Proof.
  intros Hlen Hsmall. rewrite DecodeWithdrawal_28 by exact Hlen.
  rewrite int64_small; [reflexivity|].
  pose proof (be_uint_8_range (take 8 data)) as H.
  rewrite length_take in H. lia.
Qed.

(** C4, at 28 bytes of [0xff]: the fee bytes denote [2^64 - 1], the decoded
    fee is [-1]; amount and address are as the claim says. *)
Theorem DecodeWithdrawal_fee_at_all_ones :
  be_uint (take 8 (replicate 28 "255"%byte)) = 2 ^ 64 - 1
  ∧ DecodeWithdrawal (12345 * 10 ^ 10) (replicate 28 "255"%byte)
    = Ok {| Address := replicate 20 "255"%byte; Amount := 12345; Fee := -1 |}.
Proof. split; reflexivity. Qed.

(** ** [GetDepositOutputs] *)

Lemma getDepositOutputs_amount_range {conn : Type}
    (get_deposit_outputs : conn → list CDeposit) (c : conn) :
  Forall (λ raw, 0 ≤ raw_amount raw < 2 ^ 64)
         (getDepositOutputs get_deposit_outputs c).
Proof.
  unfold getDepositOutputs. apply Forall_fmap, Forall_true. intros d. simpl.
  unfold Go.uint64. apply Z.mod_pos_bound. lia.
Qed.

(** C10: each deposit returned by [GetDepositOutputs] carries the raw
    64-bit amount read as a signed integer: the amount itself below [2^63],
    and the amount minus [2^64], a negative number, from [2^63] on. *)
Theorem GetDepositOutputs_amount_signed {conn : Type}
    (get_deposit_outputs : conn → list CDeposit)
    (HexToAddress : string → list byte) (c : conn) :
  Forall2 (λ raw dep,
             0 ≤ raw_amount raw < 2 ^ 64
             ∧ (raw_amount raw < 2 ^ 63 → Deposit_Amount dep = raw_amount raw)
             ∧ (2 ^ 63 ≤ raw_amount raw →
                  Deposit_Amount dep = raw_amount raw - 2 ^ 64
                  ∧ Deposit_Amount dep < 0))
          (getDepositOutputs get_deposit_outputs c)
          (GetDepositOutputs get_deposit_outputs HexToAddress c).
Proof.
  unfold GetDepositOutputs.
  pose proof (getDepositOutputs_amount_range get_deposit_outputs c) as Hr.
  induction Hr as [|raw raws Hraw _ IH]; [constructor|].
  rewrite fmap_cons. constructor; [|exact IH]. simpl.
  split; [exact Hraw|]. unfold Go.big_NewInt. split.
  - intros Hlt. apply int64_small. lia.
  - intros Hge. rewrite int64_large by lia. lia.
Qed.

Example GetDepositOutputs_two_amounts :
  Deposit_Amount
    <$> GetDepositOutputs
          (λ _ : (), [mkCDeposit "0xaa" 5; mkCDeposit "0xbb" (2 ^ 64 - 3)])
          (λ _, []) ()
  = [5; -3].
Proof. reflexivity. Qed.

(** ** Stores through an array pointer *)

Section Fill.

Context {A : Type}.
Implicit Types (a : Cgo.carray A) (xs : list A) (i j : nat).

Lemma fill_block a i xs :
  Cgo.bytes (Cgo.fill a i xs).1 = Cgo.bytes a
  ∧ Cgo.esize (Cgo.fill a i xs).1 = Cgo.esize a.
Proof.
  revert a i. induction xs as [|x xs IH]; intros a i; simpl; [done|].
  unfold Cgo.store. case_decide; [|done].
  destruct (IH (Cgo.mkCarray (Cgo.bytes a) (Cgo.esize a) (<[i:=x]> (Cgo.cells a)))
               (S i)) as [-> ->]. done.
Qed.

(** The loop stores at indices [i, i + length xs) only. *)
Lemma fill_dom a i xs j :
  is_Some (Cgo.cells (Cgo.fill a i xs).1 !! j) →
  is_Some (Cgo.cells a !! j) ∨ (i ≤ j < i + length xs)%nat.
Proof.
  revert a i. induction xs as [|x xs IH]; intros a i; simpl; [auto|].
  unfold Cgo.store. case_decide; [|auto]. intros Hj.
  apply IH in Hj. simpl in Hj. destruct Hj as [Hj|Hj]; [|right; lia].
  destruct (decide (i = j)) as [->|Hne]; [right; lia|].
  rewrite lookup_insert_ne in Hj by done. auto.
Qed.

(** The loop never returns an error value: it ends or it panics. *)
Lemma fill_not_Err a i xs e : (Cgo.fill a i xs).2 ≠ Err e.
Proof.
  revert a i. induction xs as [|x xs IH]; intros a i; simpl; [done|].
  unfold Cgo.store. case_decide; [apply IH|done].
Qed.

(** A loop that ends has stored every element at its index. *)
Lemma fill_Ok_lookup a i xs j :
  (Cgo.fill a i xs).2 = Ok () →
  (j < length xs)%nat →
  Cgo.cells (Cgo.fill a i xs).1 !! (i + j)%nat = xs !! j.
Proof.
  revert a i j. induction xs as [|x xs IH]; intros a i j; simpl; [lia|].
  unfold Cgo.store. case_decide; [|done]. intros Hok Hj.
  destruct j as [|j].
  - rewrite Nat.add_0_r. simpl.
    assert (Hkeep : ∀ (ys : list A) (b : Cgo.carray A) (k : nat),
               (i < k)%nat →
               Cgo.cells (Cgo.fill b k ys).1 !! i = Cgo.cells b !! i).
    { induction ys as [|y ys IHy]; intros b k Hk; simpl; [done|].
      unfold Cgo.store. case_decide; [|done].
      rewrite IHy by lia. simpl. apply lookup_insert_ne. lia. }
    rewrite Hkeep by lia. simpl. apply lookup_insert_eq.
  - replace (i + S j)%nat with (S i + j)%nat by lia.
    change ((x :: xs) !! S j) with (xs !! j).
    apply (IH _ (S i) j); [exact Hok|lia].
Qed.

(** Fewer than [2^30 - 1] elements: the loop ends. *)
Lemma fill_Ok a i xs :
  Z.of_nat (i + length xs) ≤ 2 ^ 30 - 1 → (Cgo.fill a i xs).2 = Ok ().
Proof.
  revert a i. induction xs as [|x xs IH]; intros a i Hlen; simpl in *; [done|].
  unfold Cgo.store. rewrite decide_True by lia. apply IH. lia.
Qed.

(** What the C side reads back after a loop that ended. *)
Lemma read_fill a xs :
  (Cgo.fill a 0 xs).2 = Ok () →
  Cgo.read (Cgo.fill a 0 xs).1 (length xs) = Some <$> xs.
Proof.
  intros Hok. unfold Cgo.read. apply list_eq. intros j.
  rewrite !list_lookup_fmap.
  destruct (decide (j < length xs)%nat) as [Hj|Hj].
  - rewrite lookup_seq_lt by exact Hj. simpl.
    pose proof (fill_Ok_lookup a 0 xs j Hok Hj) as Hl. simpl in Hl.
    rewrite Hl.
    destruct (lookup_lt_is_Some_2 xs j Hj) as [x Hx]. rewrite Hx. done.
  - rewrite lookup_seq_ge by lia. rewrite lookup_ge_None_2 by lia. done.
Qed.

End Fill.

(** ** [ConnectBlock]: the three blocks *)

Section ConnectBlockMemory.

Context {conn : Type}.
Variable connect_block :
  conn → list (option CDeposit) → list (option CWithdrawal) →
  list (option CRefund) → bool → bool * conn.
Variables sizeof_Deposit sizeof_Withdrawal sizeof_Refund : Z.

Local Abbreviation ConnectBlock' :=
  (ConnectBlock connect_block sizeof_Deposit sizeof_Withdrawal sizeof_Refund).

(** The block of refunds, when execution reaches its allocation, is the
    block sized by the number of withdrawals, after the refund loop. *)
Lemma refundsMemory_fill c deposits withdrawals refunds just_checking m :
  refundsMemory (ConnectBlock' c deposits withdrawals refunds just_checking).1
  = Some m →
  m = (Cgo.fill (Cgo.malloc (Z.of_nat (size withdrawals)) sizeof_Refund) 0
         (marshal_refund <$> refunds)).1.
Proof.
  unfold ConnectBlock.
  destruct (Cgo.fill _ 0 (marshal_deposit <$> deposits)) as [dS [[]|e|e]];
    simpl; try discriminate.
  destruct (Cgo.fill _ 0 (marshal_withdrawal <$> map_to_list withdrawals))
    as [wS [[]|e|e]]; simpl; try discriminate.
  destruct (Cgo.fill _ 0 (marshal_refund <$> refunds)) as [rS [[]|e|e]];
    simpl; congruence.
Qed.

(** A call that returns has handed the connector the marshalled batch. *)
Lemma ConnectBlock_returns c deposits withdrawals refunds just_checking mem b c' :
  ConnectBlock' c deposits withdrawals refunds just_checking = (mem, Ok (b, c')) →
  connect_block c (Some <$> (marshal_deposit <$> deposits))
    (Some <$> (marshal_withdrawal <$> map_to_list withdrawals))
    (Some <$> (marshal_refund <$> refunds)) just_checking = (b, c').
Proof.
  unfold ConnectBlock.
  pose proof (read_fill (Cgo.malloc (Z.of_nat (length deposits)) sizeof_Deposit)
                (marshal_deposit <$> deposits)) as Hd.
  pose proof (read_fill (Cgo.malloc (Z.of_nat (size withdrawals)) sizeof_Withdrawal)
                (marshal_withdrawal <$> map_to_list withdrawals)) as Hw.
  pose proof (read_fill (Cgo.malloc (Z.of_nat (size withdrawals)) sizeof_Refund)
                (marshal_refund <$> refunds)) as Hr.
  rewrite length_fmap in Hd. rewrite length_fmap in Hw.
  rewrite length_fmap in Hr. rewrite length_map_to_list in Hw.
  destruct (Cgo.fill _ 0 (marshal_deposit <$> deposits)) as [dS [[]|e|e]];
    simpl in *; try discriminate.
  destruct (Cgo.fill _ 0 (marshal_withdrawal <$> map_to_list withdrawals))
    as [wS [[]|e|e]]; simpl in *; try discriminate.
  destruct (Cgo.fill _ 0 (marshal_refund <$> refunds)) as [rS [[]|e|e]];
    simpl in *; try discriminate.
  rewrite Hd, Hw, Hr by reflexivity. congruence.
Qed.

End ConnectBlockMemory.

(** C6: the block that receives the refunds is allocated for as many
    elements as there are withdrawals, and one element per refund is stored
    into it: with no more refunds than withdrawals every store lies inside
    the block, and with an empty map of withdrawals and one refund the store
    lies outside it.  (The array pointer has type [*[1<<30 - 1]C.Refund], so a
    store at an index from [2^30 - 1] on panics instead.) *)
Theorem ConnectBlock_refunds_buffer {conn : Type}
    (connect_block : conn → list (option CDeposit) → list (option CWithdrawal) →
                     list (option CRefund) → bool → bool * conn)
    (sizeof_Deposit sizeof_Withdrawal sizeof_Refund : Z) :
  0 < sizeof_Refund →
  (∀ c deposits (withdrawals : gmap (list byte) Withdrawal) refunds just_checking m,
     Z.of_nat (size withdrawals) * sizeof_Refund < 2 ^ 64 →
     refundsMemory
       (ConnectBlock connect_block sizeof_Deposit sizeof_Withdrawal sizeof_Refund
          c deposits withdrawals refunds just_checking).1 = Some m →
     Cgo.esize m = sizeof_Refund
     ∧ Cgo.bytes m = Z.of_nat (size withdrawals) * sizeof_Refund
     ∧ (∀ i, is_Some (Cgo.cells m !! i) → (i < length refunds)%nat)
     ∧ (Z.of_nat (length refunds) ≤ 2 ^ 30 - 1 →
        ∀ i, (i < length refunds)%nat →
             Cgo.cells m !! i = (marshal_refund <$> refunds) !! i)
     ∧ ((length refunds ≤ size withdrawals)%nat → Cgo.all_in_bounds m))
  ∧ (∀ c just_checking,
     ∃ deposits (withdrawals : gmap (list byte) Withdrawal) refunds m,
       (size withdrawals < length refunds)%nat
       ∧ refundsMemory
           (ConnectBlock connect_block sizeof_Deposit sizeof_Withdrawal
              sizeof_Refund c deposits withdrawals refunds just_checking).1
         = Some m
       ∧ Cgo.wrote_outside m).
Proof.
  intros Hsz. split.
  - intros c deposits withdrawals refunds just_checking m Hwrap Hm.
    apply refundsMemory_fill in Hm. subst m.
    set (a := Cgo.malloc (Z.of_nat (size withdrawals)) sizeof_Refund).
    destruct (fill_block a 0 (marshal_refund <$> refunds)) as [Hb He].
    assert (Hbytes : Cgo.bytes a = Z.of_nat (size withdrawals) * sizeof_Refund).
    { unfold a, Cgo.malloc, Cgo.size_t. simpl.
      destruct (decide (size withdrawals = 0%nat)) as [->|Hne].
      - rewrite Z.mul_0_l. reflexivity.
      - assert (0 < Z.of_nat (size withdrawals)) by lia.
        rewrite (Z.mod_small (Z.of_nat (size withdrawals))) by nia.
        rewrite (Z.mod_small sizeof_Refund) by nia.
        apply Z.mod_small. nia. }
    assert (Hdom : ∀ i, is_Some
                     (Cgo.cells (Cgo.fill a 0 (marshal_refund <$> refunds)).1 !! i) →
                   (i < length refunds)%nat).
    { intros i Hi. apply fill_dom in Hi. rewrite length_fmap in Hi.
      destruct Hi as [Hi|Hi]; [|lia].
      simpl in Hi. rewrite lookup_empty in Hi. destruct Hi as [? ?]. done. }
    split; [rewrite He; reflexivity|].
    split; [rewrite Hb; exact Hbytes|].
    split; [exact Hdom|].
    split.
    { intros Hfew i Hi.
      pose proof (fill_Ok a 0 (marshal_refund <$> refunds)) as Hok.
      rewrite length_fmap in Hok. specialize (Hok ltac:(simpl; lia)).
      pose proof (fill_Ok_lookup a 0 (marshal_refund <$> refunds) i Hok) as Hl.
      rewrite length_fmap in Hl. exact (Hl Hi). }
    intros Hle i Hi. apply Hdom in Hi. unfold Cgo.in_bounds.
    rewrite Hb, He, Hbytes. simpl. nia.
  - intros c just_checking.
    exists [], ∅, [[]].
    eexists. split; [rewrite map_size_empty; simpl; lia|].
    split.
    + unfold ConnectBlock. rewrite map_to_list_empty. simpl. reflexivity.
    + exists 0%nat. simpl. split.
      * rewrite lookup_insert_eq. eauto.
      * unfold Cgo.in_bounds. simpl. rewrite map_size_empty.
        unfold Cgo.size_t. simpl. rewrite Z.mod_0_l by lia. lia.
Qed.

Lemma ConnectBlock_refunds_buffer_witness :
  (∀ c deposits (withdrawals : gmap (list byte) Withdrawal) refunds just_checking m,
     Z.of_nat (size withdrawals) * 8 < 2 ^ 64 →
     refundsMemory
       (ConnectBlock Connector.connect_block 16 48 8
          c deposits withdrawals refunds just_checking).1 = Some m →
     Cgo.esize m = 8
     ∧ Cgo.bytes m = Z.of_nat (size withdrawals) * 8
     ∧ (∀ i, is_Some (Cgo.cells m !! i) → (i < length refunds)%nat)
     ∧ (Z.of_nat (length refunds) ≤ 2 ^ 30 - 1 →
        ∀ i, (i < length refunds)%nat →
             Cgo.cells m !! i = (marshal_refund <$> refunds) !! i)
     ∧ ((length refunds ≤ size withdrawals)%nat → Cgo.all_in_bounds m))
  ∧ (∀ c just_checking,
     ∃ deposits (withdrawals : gmap (list byte) Withdrawal) refunds m,
       (size withdrawals < length refunds)%nat
       ∧ refundsMemory
           (ConnectBlock Connector.connect_block 16 48 8
              c deposits withdrawals refunds just_checking).1 = Some m
       ∧ Cgo.wrote_outside m).
Proof. apply (ConnectBlock_refunds_buffer Connector.connect_block 16 48 8). lia. Defined.

(** ** [ConnectBlock] over the modelled connector *)

Lemma connect_block_false st deposits withdrawals refunds just_checking st' :
  Connector.connect_block st deposits withdrawals refunds just_checking
  = (false, st') →
  st' = st.
Proof.
  unfold Connector.connect_block.
  destruct (Connector.present deposits), (Connector.present withdrawals),
    (Connector.present refunds); try congruence.
  case_decide; congruence.
Qed.

Lemma connect_block_chain st deposits withdrawals refunds just_checking :
  Connector.chain
    (Connector.connect_block st deposits withdrawals refunds just_checking).2
  = Connector.chain st.
Proof.
  unfold Connector.connect_block.
  destruct (Connector.present deposits), (Connector.present withdrawals),
    (Connector.present refunds); try reflexivity.
  case_decide; [|reflexivity]. destruct just_checking; reflexivity.
Qed.

(** A dry run leaves the connector as it was, whatever it answers. *)
Lemma connect_block_dry_run st deposits withdrawals refunds :
  (Connector.connect_block st deposits withdrawals refunds true).2 = st.
Proof.
  unfold Connector.connect_block.
  destruct (Connector.present deposits), (Connector.present withdrawals),
    (Connector.present refunds); try reflexivity.
  case_decide; reflexivity.
Qed.

(** C7: [ConnectBlock] is all-or-nothing: in dry-run and in commit mode
    alike, a call that returns false leaves the queued withdrawals and the
    consumed deposits (the whole state of the connector) as they were. *)
Theorem ConnectBlock_all_or_nothing
    (sizeof_Deposit sizeof_Withdrawal sizeof_Refund : Z)
    (st st' : Connector.state) (deposits : list Deposit)
    (withdrawals : gmap (list byte) Withdrawal) (refunds : list (list byte))
    (just_checking : bool) (mem : cmem) :
  ConnectBlock_model sizeof_Deposit sizeof_Withdrawal sizeof_Refund
    st deposits withdrawals refunds just_checking = (mem, Ok (false, st')) →
  Connector.queued_withdrawals st' = Connector.queued_withdrawals st
  ∧ Connector.consumed_deposits st' = Connector.consumed_deposits st
  ∧ st' = st.
Proof.
  intros H. apply ConnectBlock_returns in H. apply connect_block_false in H.
  subst st'. auto.
Qed.

Lemma ConnectBlock_all_or_nothing_witness :
  ∃ mem st',
    ConnectBlock_model 16 48 8 one_output_state
      [] {[ [] := mkWithdrawal [] 1 1 ]} [] false = (mem, Ok (false, st'))
    ∧ Connector.queued_withdrawals st' = ∅
    ∧ Connector.consumed_deposits st' = ∅.
Proof.
  eexists _, _.
  assert (H : ConnectBlock_model 16 48 8 one_output_state
                [] {[ [] := mkWithdrawal [] 1 1 ]} [] false
              = ((ConnectBlock_model 16 48 8 one_output_state
                    [] {[ [] := mkWithdrawal [] 1 1 ]} [] false).1,
                 Ok (false, one_output_state))) by (vm_compute; reflexivity).
  split; [exact H|].
  destruct (ConnectBlock_all_or_nothing 16 48 8 _ _ _ _ _ _ _ H) as (Hq & Hc & _).
  split; [exact Hq|exact Hc].
Defined.

(** ** BMM verification *)

Lemma string_from_Hash_Hex (h : list byte) :
  Text.string_from 2 (Text.Hash_Hex h)
  = Ok (Text.string_of_bytes
          (drop 2 (Text.bytes_of_string (Text.Hash_Hex h)))).
Proof.
  unfold Text.string_from. rewrite decide_True; [reflexivity|].
  unfold Text.Hash_Hex. simpl. lia.
Qed.

(** No call of the wrapper changes what the connector sees of the
    mainchain. *)
Lemma step_chain (szD szW szR : Z) (st : Connector.state) (k : call) :
  Connector.chain (step szD szW szR st k) = Connector.chain st.
Proof.
  destruct k as [header amount| |h c|deposits withdrawals refunds jc];
    unfold step.
  - unfold AttemptBmm. rewrite !string_from_Hash_Hex. reflexivity.
  - unfold ConfirmBmm, Connector.confirm_bmm.
    destruct (Connector.bmm st); reflexivity.
  - reflexivity.
  - destruct (ConnectBlock_model szD szW szR st deposits withdrawals refunds jc)
      as [mem [[b st']|e|e]] eqn:E; simpl; try reflexivity.
    apply ConnectBlock_returns in E.
    pose proof (connect_block_chain st
                  (Some <$> (marshal_deposit <$> deposits))
                  (Some <$> (marshal_withdrawal <$> map_to_list withdrawals))
                  (Some <$> (marshal_refund <$> refunds)) jc) as Hc.
    rewrite E in Hc. exact Hc.
Qed.

Lemma run_chain (szD szW szR : Z) (ks : list call) (st : Connector.state) :
  Connector.chain (run szD szW szR st ks) = Connector.chain st.
Proof.
  revert st. induction ks as [|k ks IH]; intros st; [reflexivity|].
  unfold run in *. simpl. rewrite IH. apply step_chain.
Qed.

(** C9: [VerifyBmm] answers from the mainchain state alone: two processes
    whose connectors see the same mainchain, whatever calls each of them has
    made before (BMM attempts, confirmations, block connections, earlier
    verifications), get the same boolean for the same pair of hashes, and
    the call never panics. *)
Theorem VerifyBmm_pure (szD szW szR : Z) (st1 st2 : Connector.state)
    (ks1 ks2 : list call) (mainBlockHash criticalHash : list byte) :
  Connector.chain st1 = Connector.chain st2 →
  ∃ b : bool,
    VerifyBmm Connector.verify_bmm (run szD szW szR st1 ks1)
      mainBlockHash criticalHash = Ok b
    ∧ VerifyBmm Connector.verify_bmm (run szD szW szR st2 ks2)
        mainBlockHash criticalHash = Ok b.
Proof.
  intros Hchain. unfold VerifyBmm. rewrite !string_from_Hash_Hex. simpl.
  eexists. split; [reflexivity|]. f_equal.
  unfold verifyBmm, Connector.verify_bmm.
  rewrite !run_chain, Hchain. reflexivity.
Qed.

Lemma VerifyBmm_pure_witness :
  ∃ b : bool,
    VerifyBmm Connector.verify_bmm
      (run 16 48 8 one_output_state
         [CallAttemptBmm (mkHeader [] []) 5; CallConfirmBmm]) [] [] = Ok b
    ∧ VerifyBmm Connector.verify_bmm
        (run 16 48 8 one_output_state [CallVerifyBmm [] []]) [] [] = Ok b.
Proof.
  apply (VerifyBmm_pure 16 48 8 one_output_state one_output_state). reflexivity.
Defined.

(** ** The treasury check of [Init] *)

(** The key pair of the treasury private key. *)
Lemma treasury_key_pair :
  crypto.HexToECDSA TREASURY_PRIVATE_KEY = Ok treasury_key.
Proof. vm_compute. reflexivity. Qed.

(** The address of the treasury key, in bytes and as text. *)
Lemma treasury_address :
  Text.string_of_bytes (Text.hex_encode (crypto.PubkeyToAddress treasury_key))
  = "c96aaa54e2d44c299564da76e1cd3184a2386b8d"
  ∧ crypto.Address_Hex (crypto.PubkeyToAddress treasury_key)
    = "0xC96aAa54E2d44c299564da76e1cD3184A2386B8D"
  ∧ actualTreasuryAccount treasury_key = TREASURY_ACCOUNT.
Proof. vm_compute. auto. Qed.

(** The private key 1 has another address. *)
Lemma key_one_address :
  ∃ k, crypto.HexToECDSA
         "0000000000000000000000000000000000000000000000000000000000000001"
       = Ok k
       ∧ actualTreasuryAccount k = "0x7e5f4552091a69125d5dfcb7b8c2659029395bdf".
Proof.
  exists {| crypto.D := 1; crypto.X := Secp256k1.Gx; crypto.Y := Secp256k1.Gy |}.
  split; vm_compute; reflexivity.
Qed.

(** C5: the address derived from the treasury private key is
    0xc96aaa54e2d44c299564da76e1cd3184a2386b8d once its text is put in
    lower case, so that [Init] passes the check and goes on to initialise
    the connector; and with any key and account text for which the derived
    address differs from the account, or whose key is rejected, [Init]
    panics and the connector is not initialised. *)
Theorem Init_treasury_identity {conn : Type}
    (c_init : string → Z → string → string → conn) :
  (∃ privKey,
     crypto.HexToECDSA TREASURY_PRIVATE_KEY = Ok privKey
     ∧ Text.ToLower (crypto.Address_Hex (crypto.PubkeyToAddress privKey))
       = "0xc96aaa54e2d44c299564da76e1cd3184a2386b8d"
     ∧ TREASURY_ACCOUNT = "0xc96aaa54e2d44c299564da76e1cd3184a2386b8d"
     ∧ ∀ dbPath rpcUser rpcPassword,
         Init c_init dbPath rpcUser rpcPassword
         = Ok (c_init dbPath THIS_SIDECHAIN rpcUser rpcPassword))
  ∧ (∀ private_key account privKey dbPath rpcUser rpcPassword,
       crypto.HexToECDSA private_key = Ok privKey →
       actualTreasuryAccount privKey ≠ account →
       is_Panic (Init_with c_init private_key account dbPath rpcUser rpcPassword)
       = true)
  ∧ (∀ private_key account e dbPath rpcUser rpcPassword,
       crypto.HexToECDSA private_key = Err e →
       is_Panic (Init_with c_init private_key account dbPath rpcUser rpcPassword)
       = true).
Proof.
  destruct treasury_address as (_ & _ & Hacc).
  split; [|split].
  - exists treasury_key. split; [exact treasury_key_pair|].
    split; [exact Hacc|]. split; [reflexivity|].
    intros dbPath rpcUser rpcPassword. unfold Init, Init_with.
    rewrite treasury_key_pair. rewrite decide_False; [reflexivity|].
    intros Hne. apply Hne. symmetry. exact Hacc.
  - intros private_key account privKey dbPath rpcUser rpcPassword Hkey Hne.
    unfold Init_with. rewrite Hkey. rewrite decide_True; [reflexivity|].
    intros Heq. apply Hne. symmetry. exact Heq.
  - intros private_key account e dbPath rpcUser rpcPassword Hkey.
    unfold Init_with. rewrite Hkey. reflexivity.
Qed.

Lemma Init_treasury_identity_witness :
  is_Panic
    (Init_with (λ (_ : string) (_ : Z) (_ _ : string), ())
       "0000000000000000000000000000000000000000000000000000000000000001"
       TREASURY_ACCOUNT "db" "user" "password") = true.
Proof.
  destruct key_one_address as (k & Hk & Hacc).
  apply (proj1 (proj2 (Init_treasury_identity
                         (λ (_ : string) (_ : Z) (_ _ : string), ())))
           _ _ k "db" "user" "password" Hk).
  rewrite Hacc. discriminate.
Defined.

(** * Further properties of the wrapper *)

(** ** Hexadecimal text *)

Lemma from_hex_char_digit (n : Z) :
  0 ≤ n < 16 → Text.from_hex_char (Text.hex_digit n) = Some n.
Proof.
  intros Hn.
  assert (Hc : n = 0 ∨ n = 1 ∨ n = 2 ∨ n = 3 ∨ n = 4 ∨ n = 5 ∨ n = 6 ∨ n = 7
               ∨ n = 8 ∨ n = 9 ∨ n = 10 ∨ n = 11 ∨ n = 12 ∨ n = 13 ∨ n = 14
               ∨ n = 15) by lia.
  repeat (destruct Hc as [->|Hc]; [reflexivity|]). subst n. reflexivity.
Qed.

Lemma byte_nibbles (b : byte) :
  Go.byte_of_Z (Z.lor ((Go.Z_of_byte b ≫ 4) ≪ 4) (Z.land (Go.Z_of_byte b) 15)) = b.
Proof. destruct b; reflexivity. Qed.

Lemma nibble_ranges (b : byte) :
  0 ≤ Go.Z_of_byte b ≫ 4 < 16 ∧ 0 ≤ Z.land (Go.Z_of_byte b) 15 < 16.
Proof.
  pose proof (Z_of_byte_range b) as H.
  rewrite Z.shiftr_div_pow2 by lia. change (2 ^ 4) with 16.
  change 15 with (Z.ones 4). rewrite Z.land_ones by lia. change (2 ^ 4) with 16.
  split.
  - split; [apply Z.div_pos; lia|apply Z.div_lt_upper_bound; lia].
  - apply Z.mod_pos_bound. lia.
Qed.

(** Decoding the hexadecimal text of some bytes gives the bytes back. *)
Lemma hex_decode_encode (bs : list byte) :
  Text.hex_decode (Text.hex_encode bs) = Some bs.
Proof.
  induction bs as [|b bs IH]; [reflexivity|].
  change (Text.hex_encode (b :: bs))
    with (Text.hex_digit (Go.Z_of_byte b ≫ 4)
          :: Text.hex_digit (Z.land (Go.Z_of_byte b) 15)
          :: Text.hex_encode bs).
  destruct (nibble_ranges b) as [Hhi Hlo].
  cbn [Text.hex_decode]. rewrite !from_hex_char_digit by assumption.
  cbn [mbind option_bind]. rewrite IH. cbn [mbind option_bind].
  rewrite byte_nibbles. reflexivity.
Qed.

Lemma hex_encode_inj (bs1 bs2 : list byte) :
  Text.hex_encode bs1 = Text.hex_encode bs2 → bs1 = bs2.
Proof.
  intros H. apply (f_equal Text.hex_decode) in H.
  rewrite !hex_decode_encode in H. congruence.
Qed.

Lemma length_hex_encode (bs : list byte) :
  length (Text.hex_encode bs) = (2 * length bs)%nat.
Proof.
  induction bs as [|b bs IH]; [reflexivity|].
  change (Text.hex_encode (b :: bs))
    with (Text.hex_digit (Go.Z_of_byte b ≫ 4)
          :: Text.hex_digit (Z.land (Go.Z_of_byte b) 15)
          :: Text.hex_encode bs).
  simpl. rewrite IH. lia.
Qed.

Lemma string_of_bytes_inj (l1 l2 : list byte) :
  Text.string_of_bytes l1 = Text.string_of_bytes l2 → l1 = l2.
Proof.
  intros H. apply (f_equal Text.bytes_of_string) in H.
  unfold Text.bytes_of_string, Text.string_of_bytes in H.
  rewrite !String.list_byte_of_string_of_list_byte in H. exact H.
Qed.

Lemma bytes_of_0x (l : list byte) :
  Text.bytes_of_string ("0x" +:+ Text.string_of_bytes l)
  = "0"%byte :: "x"%byte :: l.
Proof.
  unfold Text.bytes_of_string, Text.string_of_bytes.
  change ("0"%byte :: "x"%byte
          :: String.list_byte_of_string (String.string_of_list_byte l)
          = "0"%byte :: "x"%byte :: l).
  rewrite String.list_byte_of_string_of_list_byte. reflexivity.
Qed.

Lemma string_length_of_bytes (l : list byte) :
  String.length (Text.string_of_bytes l) = length l.
Proof. induction l as [|b l IH]; [reflexivity|]. simpl. f_equal. exact IH. Qed.

#[global] Instance Hash_Hex_inj : Inj (=) (=) Text.Hash_Hex.
Proof.
  intros h1 h2 H. unfold Text.Hash_Hex in H.
  apply (f_equal Text.bytes_of_string) in H. rewrite !bytes_of_0x in H.
  apply hex_encode_inj. congruence.
Qed.

(** ** Eight bytes and the number they denote *)

Lemma byte_of_Z_mod (z : Z) : Go.byte_of_Z (z mod 256) = Go.byte_of_Z z.
Proof. unfold Go.byte_of_Z. rewrite Z.mod_mod by lia. reflexivity. Qed.

(** The byte at bit [k] of a number split as [(hi * 256 + b) * 2^k + lo]. *)
Lemma byte_of_shiftr (hi lo k : Z) (b : byte) :
  0 ≤ k → 0 ≤ lo < 2 ^ k →
  Go.byte_of_Z (((hi * 256 + Go.Z_of_byte b) * 2 ^ k + lo) ≫ k) = b.
Proof.
  intros Hk Hlo. rewrite <- byte_of_Z_mod, Z.shiftr_div_pow2 by lia.
  rewrite Z.div_add_l by lia. rewrite (Z.div_small lo) by lia.
  rewrite Z.add_0_r, Z.add_comm, Z.mod_add by lia.
  rewrite Z.mod_small by apply Z_of_byte_range. apply byte_of_Z_of_byte.
Qed.

(** Writing the number that eight bytes denote gives the eight bytes. *)
Lemma put_be_uint (b0 b1 b2 b3 b4 b5 b6 b7 : byte) :
  let v := be_uint [b0; b1; b2; b3; b4; b5; b6; b7] in
  [Go.byte_of_Z (v ≫ 56); Go.byte_of_Z (v ≫ 48); Go.byte_of_Z (v ≫ 40);
   Go.byte_of_Z (v ≫ 32); Go.byte_of_Z (v ≫ 24); Go.byte_of_Z (v ≫ 16);
   Go.byte_of_Z (v ≫ 8); Go.byte_of_Z v]
  = [b0; b1; b2; b3; b4; b5; b6; b7].
Proof.
  intros v.
  pose proof (Z_of_byte_range b0). pose proof (Z_of_byte_range b1).
  pose proof (Z_of_byte_range b2). pose proof (Z_of_byte_range b3).
  pose proof (Z_of_byte_range b4). pose proof (Z_of_byte_range b5).
  pose proof (Z_of_byte_range b6). pose proof (Z_of_byte_range b7).
  set (z0 := Go.Z_of_byte b0) in *. set (z1 := Go.Z_of_byte b1) in *.
  set (z2 := Go.Z_of_byte b2) in *. set (z3 := Go.Z_of_byte b3) in *.
  set (z4 := Go.Z_of_byte b4) in *. set (z5 := Go.Z_of_byte b5) in *.
  set (z6 := Go.Z_of_byte b6) in *. set (z7 := Go.Z_of_byte b7) in *.
  assert (Hv : v = ((((((z0 * 256 + z1) * 256 + z2) * 256 + z3) * 256 + z4)
                       * 256 + z5) * 256 + z6) * 256 + z7).
  { unfold v, be_uint. simpl. fold z0 z1 z2 z3 z4 z5 z6 z7. lia. }
  clearbody v.
  assert (E0 : Go.byte_of_Z (v ≫ 56) = b0).
  { rewrite <- (byte_of_shiftr 0
       ((((((z1 * 256 + z2) * 256 + z3) * 256 + z4) * 256 + z5) * 256 + z6) * 256 + z7)
       56 b0) by lia. fold z0. f_equal. f_equal. lia. }
  assert (E1 : Go.byte_of_Z (v ≫ 48) = b1).
  { rewrite <- (byte_of_shiftr z0
       (((((z2 * 256 + z3) * 256 + z4) * 256 + z5) * 256 + z6) * 256 + z7)
       48 b1) by lia. fold z1. f_equal. f_equal. lia. }
  assert (E2 : Go.byte_of_Z (v ≫ 40) = b2).
  { rewrite <- (byte_of_shiftr (z0 * 256 + z1)
       ((((z3 * 256 + z4) * 256 + z5) * 256 + z6) * 256 + z7)
       40 b2) by lia. fold z2. f_equal. f_equal. lia. }
  assert (E3 : Go.byte_of_Z (v ≫ 32) = b3).
  { rewrite <- (byte_of_shiftr ((z0 * 256 + z1) * 256 + z2)
       (((z4 * 256 + z5) * 256 + z6) * 256 + z7)
       32 b3) by lia. fold z3. f_equal. f_equal. lia. }
  assert (E4 : Go.byte_of_Z (v ≫ 24) = b4).
  { rewrite <- (byte_of_shiftr (((z0 * 256 + z1) * 256 + z2) * 256 + z3)
       ((z5 * 256 + z6) * 256 + z7)
       24 b4) by lia. fold z4. f_equal. f_equal. lia. }
  assert (E5 : Go.byte_of_Z (v ≫ 16) = b5).
  { rewrite <- (byte_of_shiftr
       ((((z0 * 256 + z1) * 256 + z2) * 256 + z3) * 256 + z4)
       (z6 * 256 + z7) 16 b5) by lia. fold z5. f_equal. f_equal. lia. }
  assert (E6 : Go.byte_of_Z (v ≫ 8) = b6).
  { rewrite <- (byte_of_shiftr
       (((((z0 * 256 + z1) * 256 + z2) * 256 + z3) * 256 + z4) * 256 + z5)
       z7 8 b6) by lia. fold z6. f_equal. f_equal. lia. }
  assert (E7 : Go.byte_of_Z v = b7).
  { rewrite <- (byte_of_shiftr
       ((((((z0 * 256 + z1) * 256 + z2) * 256 + z3) * 256 + z4) * 256 + z5)
          * 256 + z6)
       0 0 b7) by lia. fold z7. rewrite Z.shiftr_0_r. f_equal. lia. }
  rewrite E0, E1, E2, E3, E4, E5, E6, E7. reflexivity.
Qed.

Lemma be_uint_inj (bs1 bs2 : list byte) :
  length bs1 = 8%nat → length bs2 = 8%nat →
  be_uint bs1 = be_uint bs2 → bs1 = bs2.
Proof.
  intros H1 H2 Heq.
  destruct bs1 as [|a0 [|a1 [|a2 [|a3 [|a4 [|a5 [|a6 [|a7 [|? ?]]]]]]]]];
    simpl in H1; try lia.
  destruct bs2 as [|b0 [|b1 [|b2 [|b3 [|b4 [|b5 [|b6 [|b7 [|? ?]]]]]]]]];
    simpl in H2; try lia.
  rewrite <- (put_be_uint a0 a1 a2 a3 a4 a5 a6 a7).
  rewrite <- (put_be_uint b0 b1 b2 b3 b4 b5 b6 b7).
  cbv zeta. rewrite Heq. reflexivity.
Qed.

Lemma int64_range (u : Z) : - 2 ^ 63 ≤ Go.int64 u < 2 ^ 63.
Proof.
  unfold Go.int64. pose proof (Z.mod_pos_bound u (2 ^ 64) ltac:(lia)).
  destruct (Z.ltb_spec (u mod 2 ^ 64) (2 ^ 63)); lia.
Qed.

Lemma int64_inj (u1 u2 : Z) :
  0 ≤ u1 < 2 ^ 64 → 0 ≤ u2 < 2 ^ 64 → Go.int64 u1 = Go.int64 u2 → u1 = u2.
Proof.
  intros H1 H2. unfold Go.int64. rewrite !Z.mod_small by lia.
  destruct (Z.ltb_spec u1 (2 ^ 63)), (Z.ltb_spec u2 (2 ^ 63)); lia.
Qed.

(** ** More on the withdrawal codec *)

(** X1: on 28 bytes [DecodeWithdrawal] succeeds; the address is the last 20
    bytes, the amount is the number of whole Satoshi in the value (the
    remainder below one Satoshi is dropped, also for a negative value), and
    the fee is the first 8 bytes read as a two's complement 64-bit number,
    which agrees with their unsigned reading modulo [2^64]. *)
Theorem DecodeWithdrawal_fields (value : Z) (data : list byte) :
  length data = 28%nat →
  ∃ w, DecodeWithdrawal value data = Ok w
       ∧ Address w = drop 8 data
       ∧ length (Address w) = 20%nat
       ∧ Amount w * Satoshi ≤ value < (Amount w + 1) * Satoshi
       ∧ - 2 ^ 63 ≤ Fee w < 2 ^ 63
       ∧ Fee w mod 2 ^ 64 = be_uint (take 8 data).
Proof.
  intros Hlen. eexists. split; [apply DecodeWithdrawal_28, Hlen|]. simpl.
  split; [reflexivity|]. split; [rewrite length_drop; lia|].
  split.
  - pose proof (Z.div_mod value Satoshi ltac:(unfold Satoshi; lia)) as Hd.
    pose proof (Z.mod_pos_bound value Satoshi ltac:(unfold Satoshi; lia)) as Hm.
    lia.
  - split; [apply int64_range|].
    pose proof (be_uint_8_range (take 8 data)) as Hr.
    rewrite length_take in Hr. specialize (Hr ltac:(lia)).
    unfold Go.int64. rewrite (Z.mod_small (be_uint (take 8 data))) by lia.
    destruct (Z.ltb_spec (be_uint (take 8 data)) (2 ^ 63)).
    + apply Z.mod_small. lia.
    + rewrite <- (Z.mod_add _ 1) by lia.
      replace (be_uint (take 8 data) - 2 ^ 64 + 1 * 2 ^ 64)
        with (be_uint (take 8 data)) by lia.
      apply Z.mod_small. lia.
Qed.

Lemma DecodeWithdrawal_fields_witness :
  ∃ w, DecodeWithdrawal (-1) (replicate 28 "128"%byte) = Ok w
       ∧ Address w = drop 8 (replicate 28 "128"%byte)
       ∧ length (Address w) = 20%nat
       ∧ Amount w * Satoshi ≤ -1 < (Amount w + 1) * Satoshi
       ∧ - 2 ^ 63 ≤ Fee w < 2 ^ 63
       ∧ Fee w mod 2 ^ 64 = be_uint (take 8 (replicate 28 "128"%byte)).
Proof. apply (DecodeWithdrawal_fields (-1) (replicate 28 "128"%byte)). reflexivity. Defined.

(** X2: [DecodeWithdrawal] loses none of the 28 bytes: for one value, two
    different payloads of 28 bytes never decode to the same withdrawal. *)
Theorem DecodeWithdrawal_injective (value : Z) (data1 data2 : list byte) :
  length data1 = 28%nat → length data2 = 28%nat →
  DecodeWithdrawal value data1 = DecodeWithdrawal value data2 →
  data1 = data2.
Proof.
  intros H1 H2 Heq. rewrite !DecodeWithdrawal_28 in Heq by assumption.
  injection Heq as Haddr Hfee.
  rewrite <- (take_drop 8 data1), <- (take_drop 8 data2). f_equal; [|exact Haddr].
  apply be_uint_inj; [rewrite length_take; lia|rewrite length_take; lia|].
  apply int64_inj; [| |exact Hfee];
    apply be_uint_8_range; rewrite length_take; lia.
Qed.

Lemma DecodeWithdrawal_injective_witness :
  replicate 28 "001"%byte = replicate 20 "001"%byte ++ replicate 8 "001"%byte.
Proof.
  apply (DecodeWithdrawal_injective 7); reflexivity.
Defined.

(** X3: decoding what [GetWithdrawalData] produced for a fee gives the
    connector's address back, and the fee itself when it is below [2^63],
    the fee minus [2^64] otherwise. *)
Theorem encode_then_decode {conn : Type}
    (get_new_mainchain_address : conn → list byte * conn) (c : conn)
    (fee value : Z) :
  0 ≤ fee < 2 ^ 64 →
  length (get_new_mainchain_address c).1 = 20%nat →
  ∃ data,
    (GetWithdrawalData get_new_mainchain_address c fee).1 = Ok data
    ∧ DecodeWithdrawal value data
      = Ok {| Address := (get_new_mainchain_address c).1;
              Amount := value `div` Satoshi;
              Fee := if fee <? 2 ^ 63 then fee else fee - 2 ^ 64 |}.
Proof.
  intros Hfee Haddr.
  destruct (decode_encode get_new_mainchain_address c fee value Hfee Haddr)
    as (data & Hd & Hw).
  exists data. split; [exact Hd|]. rewrite Hw. do 2 f_equal.
  unfold Go.int64. rewrite Z.mod_small by lia. reflexivity.
Qed.

Lemma encode_then_decode_witness :
  ∃ data,
    (GetWithdrawalData (λ n : nat, (replicate 20 "009"%byte, S n)) 0%nat
       (2 ^ 63 + 5)).1 = Ok data
    ∧ DecodeWithdrawal 30000000000 data
      = Ok {| Address := replicate 20 "009"%byte;
              Amount := 3;
              Fee := 5 - 2 ^ 63 |}.
Proof.
  apply (encode_then_decode (λ n : nat, (replicate 20 "009"%byte, S n)) 0%nat
           (2 ^ 63 + 5) 30000000000).
  - lia.
  - reflexivity.
Defined.

(** X4: encoding again what was decoded gives the payload back, as long as
    the first fee byte is below [0x80]: with the decoded fee passed as
    [w.Fee.Uint64()] and a connector that allocates the decoded address,
    [GetWithdrawalData] returns the 28 bytes that were decoded. *)
Theorem decode_then_encode {conn : Type}
    (get_new_mainchain_address : conn → list byte * conn) (c : conn)
    (value : Z) (data : list byte) (w : Withdrawal) :
  length data = 28%nat →
  be_uint (take 8 data) < 2 ^ 63 →
  DecodeWithdrawal value data = Ok w →
  (get_new_mainchain_address c).1 = Address w →
  (GetWithdrawalData get_new_mainchain_address c (Go.big_Uint64 (Fee w))).1
  = Ok data.
Proof.
  intros Hlen Hsmall Hw Halloc.
  rewrite DecodeWithdrawal_fee_unsigned in Hw by assumption.
  injection Hw as <-. simpl in Halloc. cbn [Fee].
  pose proof (be_uint_8_range (take 8 data)) as Hr.
  rewrite length_take in Hr. specialize (Hr ltac:(lia)).
  assert (Hfee : Go.big_Uint64 (be_uint (take 8 data)) = be_uint (take 8 data)).
  { unfold Go.big_Uint64. rewrite Z.abs_eq by lia. apply Z.mod_small. lia. }
  rewrite Hfee. unfold GetWithdrawalData.
  destruct (get_new_mainchain_address c) as [cAddress c'] eqn:E.
  simpl in Halloc. subst cAddress. rewrite PutUint64_make.
  rewrite range_copy_full by (rewrite length_drop; lia).
  destruct data as [|b0 [|b1 [|b2 [|b3 [|b4 [|b5 [|b6 [|b7 rest]]]]]]]];
    simpl in Hlen; try lia.
  change (take 8 (b0 :: b1 :: b2 :: b3 :: b4 :: b5 :: b6 :: b7 :: rest))
    with [b0; b1; b2; b3; b4; b5; b6; b7].
  change (drop 8 (b0 :: b1 :: b2 :: b3 :: b4 :: b5 :: b6 :: b7 :: rest))
    with rest.
  pose proof (put_be_uint b0 b1 b2 b3 b4 b5 b6 b7) as Hput. cbv zeta in Hput.
  cbn [fst mbind result_bind]. rewrite Hput. reflexivity.
Qed.

Lemma decode_then_encode_witness :
  (GetWithdrawalData (λ n : nat, (replicate 20 "127"%byte, S n)) 0%nat
     (Go.big_Uint64 (Fee (mkWithdrawal (replicate 20 "127"%byte) 0
                            (be_uint (replicate 8 "127"%byte)))))).1
  = Ok (replicate 28 "127"%byte).
Proof.
  apply (decode_then_encode (λ n : nat, (replicate 20 "127"%byte, S n)) 0%nat
           5 (replicate 28 "127"%byte)).
  - reflexivity.
  - vm_compute. reflexivity.
  - reflexivity.
  - reflexivity.
Defined.

(** ** More on [ConnectBlock] *)


(** A block allocated for [n] elements holds every store of a loop over at
    most [n] elements. *)
Lemma fill_malloc_in_bounds {A : Type} (n : nat) (sizeof : Z) (xs : list A) :
  0 < sizeof → Z.of_nat n * sizeof < 2 ^ 64 → (length xs ≤ n)%nat →
  Cgo.all_in_bounds (Cgo.fill (Cgo.malloc (Z.of_nat n) sizeof) 0 xs).1.
Proof.
  intros Hsz Hwrap Hlen i Hi.
  set (a := Cgo.malloc (Z.of_nat n) sizeof) in *.
  destruct (fill_block a 0 xs) as [Hb He].
  apply fill_dom in Hi. destruct Hi as [Hi|Hi].
  { simpl in Hi. rewrite lookup_empty in Hi. destruct Hi as [? ?]. done. }
  unfold Cgo.in_bounds. rewrite Hb, He. simpl. unfold Cgo.size_t.
  assert (0 < Z.of_nat n) by lia.
  rewrite (Z.mod_small (Z.of_nat n)) by nia.
  rewrite (Z.mod_small sizeof) by nia.
  rewrite Z.mod_small by nia. nia.
Qed.



(** X6: the blocks for the deposits and for the withdrawals are allocated
    for exactly the elements stored into them, so that every store lies
    inside its block (for element sizes above 0 and byte counts below
    [2^64]). *)
Theorem ConnectBlock_deposits_withdrawals_in_bounds {conn : Type}
    (connect_block : conn → list (option CDeposit) → list (option CWithdrawal) →
                     list (option CRefund) → bool → bool * conn)
    (sizeof_Deposit sizeof_Withdrawal sizeof_Refund : Z)
    (c : conn) (deposits : list Deposit)
    (withdrawals : gmap (list byte) Withdrawal) (refunds : list (list byte))
    (just_checking : bool) :
  0 < sizeof_Deposit → 0 < sizeof_Withdrawal →
  Z.of_nat (length deposits) * sizeof_Deposit < 2 ^ 64 →
  Z.of_nat (size withdrawals) * sizeof_Withdrawal < 2 ^ 64 →
  let mem := (ConnectBlock connect_block sizeof_Deposit sizeof_Withdrawal
                sizeof_Refund c deposits withdrawals refunds just_checking).1 in
  (∃ m, depositsMemory mem = Some m ∧ Cgo.all_in_bounds m)
  ∧ (∀ m, withdrawalsMemory mem = Some m → Cgo.all_in_bounds m).
Proof.
  intros HsD HsW HwD HwW mem. subst mem. unfold ConnectBlock.
  pose proof (fill_malloc_in_bounds (length deposits) sizeof_Deposit
                (marshal_deposit <$> deposits) HsD HwD) as Bd.
  pose proof (fill_malloc_in_bounds (size withdrawals) sizeof_Withdrawal
                (marshal_withdrawal <$> map_to_list withdrawals) HsW HwW) as Bw.
  rewrite length_fmap in Bd. rewrite length_fmap, length_map_to_list in Bw.
  specialize (Bd ltac:(lia)). specialize (Bw ltac:(lia)).
  destruct (Cgo.fill _ 0 (marshal_deposit <$> deposits)) as [dS [[]|e|e]];
    simpl in *;
    try (split; [eexists; split; [reflexivity|exact Bd]|intros m; discriminate]).
  destruct (Cgo.fill _ 0 (marshal_withdrawal <$> map_to_list withdrawals))
    as [wS [[]|e|e]]; simpl in *;
    try (split; [eexists; split; [reflexivity|exact Bd]
                |intros m [= <-]; exact Bw]).
  destruct (Cgo.fill _ 0 (marshal_refund <$> refunds)) as [rS [[]|e|e]];
    simpl; (split; [eexists; split; [reflexivity|exact Bd]
                   |intros m [= <-]; exact Bw]).
Qed.

Lemma ConnectBlock_deposits_withdrawals_in_bounds_witness :
  let mem := (ConnectBlock_model 16 48 8 one_output_state
                [mkDeposit [] 7] {[ [] := mkWithdrawal [] 1 1 ]} [] true).1 in
  (∃ m, depositsMemory mem = Some m ∧ Cgo.all_in_bounds m)
  ∧ (∀ m, withdrawalsMemory mem = Some m → Cgo.all_in_bounds m).
Proof.
  apply (ConnectBlock_deposits_withdrawals_in_bounds Connector.connect_block
           16 48 8 one_output_state [mkDeposit [] 7]
           {[ [] := mkWithdrawal [] 1 1 ]} [] true).
  - lia.
  - lia.
  - simpl. lia.
  - rewrite map_size_singleton. simpl. lia.
Defined.



(** ** Amounts on their way back to the connector *)

(** [C.ulong(x.Uint64())] of the signed reading of a 64-bit number. *)
Lemma ulong_Uint64_int64 (a : Z) :
  0 ≤ a < 2 ^ 64 →
  Cgo.ulong (Go.big_Uint64 (Go.big_NewInt (Go.int64 a)))
  = if a <? 2 ^ 63 then a else 2 ^ 64 - a.
Proof.
  intros Ha. unfold Cgo.ulong, Go.big_Uint64, Go.big_NewInt, Go.int64.
  rewrite (Z.mod_small a) by lia.
  destruct (Z.ltb_spec a (2 ^ 63)).
  - rewrite Z.abs_eq by lia. rewrite Z.mod_mod by lia. apply Z.mod_small. lia.
  - rewrite Z.abs_neq by lia. rewrite Z.mod_mod by lia.
    rewrite Z.mod_small by lia. lia.
Qed.

(** X8: a deposit that [GetDepositOutputs] read from the connector and that
    [ConnectBlock] marshals again carries the connector's amount when that
    amount is at most [2^63]; a larger amount [a] goes back as [2^64 - a]. *)
Theorem deposit_amount_there_and_back {conn : Type}
    (get_deposit_outputs : conn → list CDeposit)
    (HexToAddress : string → list byte) (c : conn) :
  Forall (λ cDeposit, 0 ≤ cd_amount cDeposit < 2 ^ 64) (get_deposit_outputs c) →
  Forall2 (λ cDeposit back,
             cd_amount back
             = if cd_amount cDeposit <? 2 ^ 63 then cd_amount cDeposit
               else 2 ^ 64 - cd_amount cDeposit)
          (get_deposit_outputs c)
          (marshal_deposit
             <$> GetDepositOutputs get_deposit_outputs HexToAddress c).
Proof.
  unfold GetDepositOutputs, getDepositOutputs.
  induction 1 as [|cd cds Hcd _ IH]; [constructor|].
  rewrite !fmap_cons. constructor; [|exact IH]. simpl.
  unfold Go.uint64. rewrite (Z.mod_small (cd_amount cd)) by lia.
  apply ulong_Uint64_int64, Hcd.
Qed.

Lemma deposit_amount_there_and_back_witness :
  Forall2 (λ cDeposit back,
             cd_amount back
             = if cd_amount cDeposit <? 2 ^ 63 then cd_amount cDeposit
               else 2 ^ 64 - cd_amount cDeposit)
          [mkCDeposit "0xaa" 5; mkCDeposit "0xbb" (2 ^ 64 - 3)]
          (marshal_deposit
             <$> GetDepositOutputs
                   (λ _ : (), [mkCDeposit "0xaa" 5; mkCDeposit "0xbb" (2 ^ 64 - 3)])
                   (λ _, []) ()).
Proof.
  apply (deposit_amount_there_and_back
           (λ _ : (), [mkCDeposit "0xaa" 5; mkCDeposit "0xbb" (2 ^ 64 - 3)])
           (λ _, []) ()).
  repeat constructor; simpl; lia.
Defined.

(** X9: a withdrawal decoded from 28 bytes and then marshalled by
    [ConnectBlock] carries the 20 address bytes, the whole Satoshi of a
    value below [2^64] Satoshi, and the fee [f] of the payload when
    [f <= 2^63], but [2^64 - f] when the fee is larger. *)
Theorem withdrawal_decoded_then_marshalled (id : list byte) (value : Z)
    (data : list byte) (w : Withdrawal) :
  length data = 28%nat →
  0 ≤ value < 2 ^ 64 * Satoshi →
  DecodeWithdrawal value data = Ok w →
  marshal_withdrawal (id, w)
  = {| cw_id := Text.Hash_Hex id;
       cw_address := drop 8 data;
       cw_amount := value `div` Satoshi;
       cw_fee := if be_uint (take 8 data) <? 2 ^ 63 then be_uint (take 8 data)
                 else 2 ^ 64 - be_uint (take 8 data) |}.
Proof.
  intros Hlen Hv Hw. rewrite DecodeWithdrawal_28 in Hw by exact Hlen.
  injection Hw as <-. unfold marshal_withdrawal. simpl. f_equal.
  - assert (0 ≤ value `div` Satoshi < 2 ^ 64).
    { split; [apply Z.div_pos; unfold Satoshi; lia|].
      apply Z.div_lt_upper_bound; unfold Satoshi in *; lia. }
    unfold Cgo.ulong, Go.big_Uint64. rewrite Z.abs_eq by lia.
    rewrite Z.mod_mod by lia. apply Z.mod_small. lia.
  - apply (ulong_Uint64_int64 (be_uint (take 8 data))).
    apply be_uint_8_range. rewrite length_take. lia.
Qed.

Lemma withdrawal_decoded_then_marshalled_witness :
  marshal_withdrawal
    ([], mkWithdrawal (replicate 20 "255"%byte) 12345 (-1))
  = {| cw_id := "0x";
       cw_address := replicate 20 "255"%byte;
       cw_amount := 12345;
       cw_fee := 1 |}.
Proof.
  apply (withdrawal_decoded_then_marshalled [] (12345 * 10 ^ 10)
           (replicate 28 "255"%byte)).
  - reflexivity.
  - vm_compute. split; [discriminate|reflexivity].
  - reflexivity.
Defined.

(** ** Address text *)

Lemma hex_digit_lower (n : Z) : 0 ≤ n < 16 → is_lower_hex (Text.hex_digit n).
Proof.
  intros Hn.
  assert (Hc : n = 0 ∨ n = 1 ∨ n = 2 ∨ n = 3 ∨ n = 4 ∨ n = 5 ∨ n = 6 ∨ n = 7
               ∨ n = 8 ∨ n = 9 ∨ n = 10 ∨ n = 11 ∨ n = 12 ∨ n = 13 ∨ n = 14
               ∨ n = 15) by lia.
  unfold is_lower_hex.
  repeat (destruct Hc as [->|Hc]; [vm_compute; intuition discriminate|]).
  subst n. vm_compute. intuition discriminate.
Qed.

Lemma hex_encode_lower (bs : list byte) : Forall is_lower_hex (Text.hex_encode bs).
Proof.
  induction bs as [|b bs IH]; [constructor|].
  change (Text.hex_encode (b :: bs))
    with (Text.hex_digit (Go.Z_of_byte b ≫ 4)
          :: Text.hex_digit (Z.land (Go.Z_of_byte b) 15)
          :: Text.hex_encode bs).
  destruct (nibble_ranges b) as [Hhi Hlo].
  constructor; [apply hex_digit_lower, Hhi|].
  constructor; [apply hex_digit_lower, Hlo|exact IH].
Qed.

(** Lowering a digit undoes whatever the checksum did to it. *)
Lemma lower_checksum_digit (hash : list byte) (i : nat) (c : byte) :
  is_lower_hex c → Text.lower_byte (crypto.checksum_digit hash i c) = c.
Proof.
  intros Hc. unfold crypto.checksum_digit, is_lower_hex in *.
  set (nibble := if decide ((i mod 2)%nat = 0%nat) then _ else _).
  clearbody nibble. case_decide as Hup.
  - unfold Text.lower_byte. rewrite Z_of_byte_of_Z.
    rewrite Z.mod_small by lia. rewrite decide_True by lia.
    replace (Go.Z_of_byte c - 32 + 32) with (Go.Z_of_byte c) by lia.
    apply byte_of_Z_of_byte.
  - unfold Text.lower_byte. rewrite decide_False by lia. reflexivity.
Qed.

(** The lower-case text of an address is its plain hexadecimal text. *)
Lemma ToLower_Address_Hex (a : list byte) :
  Text.ToLower (crypto.Address_Hex a)
  = "0x" +:+ Text.string_of_bytes (Text.hex_encode a).
Proof.
  unfold Text.ToLower, crypto.Address_Hex. rewrite bytes_of_0x.
  rewrite !fmap_cons.
  change (Text.lower_byte "0"%byte) with "0"%byte.
  change (Text.lower_byte "x"%byte) with "x"%byte.
  rewrite fmap_imap.
  rewrite (imap_ext _ (const id)).
  - rewrite imap_const, list_fmap_id. reflexivity.
  - intros i x Hx. simpl. apply lower_checksum_digit.
    pose proof (hex_encode_lower a) as Hall.
    rewrite Forall_lookup in Hall. exact (Hall i x Hx).
Qed.

(** X10: the address text that [ConnectBlock] puts into a deposit and that
    [CreateDeposit] passes on is ["0x"] followed by the 40 lower-case
    hexadecimal digits of the 20 address bytes: lowering the text removes
    the checksum capitals of [Hex()], whatever the checksum is.  Two
    different addresses never give the same text. *)
Theorem address_text_is_plain_hex {conn : Type}
    (create_deposit : conn → string → Z → Z → bool * conn) (c : conn)
    (address : list byte) (amount fee : Z) (deposit : Deposit) :
  0 ≤ amount < 2 ^ 64 → 0 ≤ fee < 2 ^ 64 →
  CreateDeposit create_deposit c address amount fee
  = create_deposit c ("0x" +:+ Text.string_of_bytes (Text.hex_encode address))
      amount fee
  ∧ cd_address (marshal_deposit deposit)
    = "0x" +:+ Text.string_of_bytes (Text.hex_encode (Deposit_Address deposit))
  ∧ String.length (cd_address (marshal_deposit deposit))
    = (2 + 2 * length (Deposit_Address deposit))%nat
  ∧ (∀ deposit',
       cd_address (marshal_deposit deposit)
       = cd_address (marshal_deposit deposit') →
       Deposit_Address deposit = Deposit_Address deposit').
Proof.
  intros Ha Hf. unfold CreateDeposit, marshal_deposit. cbn [cd_address].
  rewrite !ToLower_Address_Hex. unfold Cgo.ulong.
  rewrite (Z.mod_small amount), (Z.mod_small fee) by lia.
  split; [reflexivity|]. split; [reflexivity|]. split.
  - change (String.length ("0x" +:+ ?s)) with (S (S (String.length s))).
    rewrite string_length_of_bytes, length_hex_encode. reflexivity.
  - intros deposit'. rewrite ToLower_Address_Hex. intros H.
    apply (inj Text.Hash_Hex). exact H.
Qed.

Lemma address_text_is_plain_hex_witness :
  CreateDeposit (λ (n : nat) (s : string) (a f : Z), (true, S n)) 0%nat
    (replicate 20 "171"%byte) 5 1
  = (true, 1%nat)
  ∧ cd_address (marshal_deposit (mkDeposit (replicate 20 "171"%byte) 5))
    = "0xabababababababababababababababababababab".
Proof.
  destruct (address_text_is_plain_hex
              (λ (n : nat) (s : string) (a f : Z), (true, S n)) 0%nat
              (replicate 20 "171"%byte) 5 1
              (mkDeposit (replicate 20 "171"%byte) 5)
              ltac:(lia) ltac:(lia)) as (H1 & H2 & _).
  split; [exact H1|exact H2].
Defined.

(** ** Hashes handed to the BMM functions *)

Lemma string_from_2_Hash_Hex (h : list byte) :
  Text.string_from 2 (Text.Hash_Hex h)
  = Ok (Text.string_of_bytes (Text.hex_encode h)).
Proof.
  rewrite string_from_Hash_Hex. unfold Text.Hash_Hex.
  rewrite bytes_of_0x. reflexivity.
Qed.

(** X11: [VerifyBmm] and [AttemptBmm] never panic on the slice [[2:]]; the
    connector receives each hash as its bare lower-case hexadecimal text,
    two digits per byte and no ["0x"], and different hashes give different
    texts. *)
Theorem bmm_hashes_as_bare_hex {conn : Type}
    (attempt_bmm : conn → string → string → Z → conn)
    (verify_bmm : conn → string → string → bool)
    (c : conn) (mainBlockHash criticalHash : list byte)
    (header : Header) (amount : Z) :
  let hex h := Text.string_of_bytes (Text.hex_encode h) in
  VerifyBmm verify_bmm c mainBlockHash criticalHash
  = Ok (verify_bmm c (hex mainBlockHash) (hex criticalHash))
  ∧ AttemptBmm attempt_bmm c header amount
    = Ok (attempt_bmm c (hex (Header_Hash header))
            (hex (PrevMainBlockHash header)) (amount mod 2 ^ 64))
  ∧ (∀ h, String.length (hex h) = (2 * length h)%nat)
  ∧ (∀ h h', hex h = hex h' → h = h').
Proof.
  intros hex. unfold VerifyBmm, AttemptBmm.
  rewrite !string_from_2_Hash_Hex.
  split; [reflexivity|]. split; [reflexivity|]. split.
  - intros h. unfold hex. rewrite string_length_of_bytes. apply length_hex_encode.
  - intros h h' H. apply hex_encode_inj, string_of_bytes_inj, H.
Qed.

(** ** Refunds that outnumber the withdrawals *)

(** A loop leaves the indices below its start alone. *)
Lemma fill_below {A : Type} (xs : list A) (a : Cgo.carray A) (i k : nat) :
  (i < k)%nat →
  Cgo.cells (Cgo.fill a k xs).1 !! i = Cgo.cells a !! i.
Proof.
  revert a k. induction xs as [|x xs IH]; intros a k Hk; simpl; [done|].
  unfold Cgo.store. case_decide; [|done].
  rewrite IH by lia. simpl. apply lookup_insert_ne. lia.
Qed.

(** Before it can panic, a loop has stored at every index below
    [2^30 - 1] that it covers. *)
Lemma fill_reached {A : Type} (xs : list A) (a : Cgo.carray A) (i j : nat) :
  (j < length xs)%nat →
  Z.of_nat (i + j) < 2 ^ 30 - 1 →
  is_Some (Cgo.cells (Cgo.fill a i xs).1 !! (i + j)%nat).
Proof.
  revert a i j. induction xs as [|x xs IH]; intros a i j Hj Hi; simpl in *; [lia|].
  unfold Cgo.store. rewrite decide_True by lia.
  destruct j as [|j].
  - rewrite Nat.add_0_r. rewrite fill_below by lia. simpl.
    rewrite lookup_insert_eq. eauto.
  - replace (i + S j)%nat with (S i + j)%nat by lia.
    apply IH; [lia|]. rewrite Nat2Z.inj_add in *. lia.
Qed.

(** X12: whenever there are more refunds than withdrawals, the refund loop
    of [ConnectBlock] stores outside the block it was given: the refund at
    index [len(withdrawals)] lies past the end of a block allocated for
    [len(withdrawals)] elements (for an element size above 0, a byte count
    below [2^64], and collections short enough for the loops before it to
    end). *)
Theorem ConnectBlock_more_refunds_write_outside {conn : Type}
    (connect_block : conn → list (option CDeposit) → list (option CWithdrawal) →
                     list (option CRefund) → bool → bool * conn)
    (sizeof_Deposit sizeof_Withdrawal sizeof_Refund : Z)
    (c : conn) (deposits : list Deposit)
    (withdrawals : gmap (list byte) Withdrawal) (refunds : list (list byte))
    (just_checking : bool) :
  0 < sizeof_Refund →
  Z.of_nat (size withdrawals) * sizeof_Refund < 2 ^ 64 →
  Z.of_nat (length deposits) ≤ 2 ^ 30 - 1 →
  Z.of_nat (size withdrawals) < 2 ^ 30 - 1 →
  (size withdrawals < length refunds)%nat →
  ∃ m,
    refundsMemory
      (ConnectBlock connect_block sizeof_Deposit sizeof_Withdrawal sizeof_Refund
         c deposits withdrawals refunds just_checking).1 = Some m
    ∧ Cgo.wrote_outside m.
Proof.
  intros Hsz Hwrap Hd Hw Hmore. unfold ConnectBlock.
  pose proof (fill_Ok (Cgo.malloc (Z.of_nat (length deposits)) sizeof_Deposit) 0
                (marshal_deposit <$> deposits)) as Od.
  pose proof (fill_Ok (Cgo.malloc (Z.of_nat (size withdrawals)) sizeof_Withdrawal) 0
                (marshal_withdrawal <$> map_to_list withdrawals)) as Ow.
  rewrite length_fmap in Od. rewrite length_fmap, length_map_to_list in Ow.
  specialize (Od ltac:(simpl; lia)). specialize (Ow ltac:(simpl; lia)).
  set (a := Cgo.malloc (Z.of_nat (size withdrawals)) sizeof_Refund).
  pose proof (fill_reached (marshal_refund <$> refunds) a 0 (size withdrawals))
    as Hr.
  rewrite length_fmap in Hr. specialize (Hr Hmore ltac:(simpl; lia)).
  destruct (fill_block a 0 (marshal_refund <$> refunds)) as [Hb He].
  destruct (Cgo.fill _ 0 (marshal_deposit <$> deposits)) as [dS rd].
  destruct (Cgo.fill _ 0 (marshal_withdrawal <$> map_to_list withdrawals))
    as [wS rw].
  simpl in Od, Ow. subst rd rw.
  destruct (Cgo.fill a 0 (marshal_refund <$> refunds)) as [rS rr].
  simpl in Hr, Hb, He.
  exists rS. split; [destruct rr as [[]|e|e]; reflexivity|].
  exists (size withdrawals). split; [exact Hr|].
  unfold Cgo.in_bounds. rewrite Hb, He. unfold a. simpl. unfold Cgo.size_t.
  destruct (decide (size withdrawals = 0%nat)) as [->|Hne].
  - simpl. rewrite Z.mod_0_l by lia. lia.
  - assert (0 < Z.of_nat (size withdrawals)) by lia.
    rewrite (Z.mod_small (Z.of_nat (size withdrawals))) by nia.
    rewrite (Z.mod_small sizeof_Refund) by nia.
    rewrite Z.mod_small by nia. nia.
Qed.

Lemma ConnectBlock_more_refunds_write_outside_witness :
  ∃ m,
    refundsMemory
      (ConnectBlock_model 16 48 8 one_output_state
         [] {[ [] := mkWithdrawal [] 1 1 ]} [[]; []] true).1 = Some m
    ∧ Cgo.wrote_outside m.
Proof.
  apply (ConnectBlock_more_refunds_write_outside Connector.connect_block 16 48 8
           one_output_state [] {[ [] := mkWithdrawal [] 1 1 ]} [[]; []] true).
  - lia.
  - rewrite map_size_singleton. simpl. lia.
  - simpl. lia.
  - rewrite map_size_singleton. simpl. lia.
  - rewrite map_size_singleton. simpl. lia.
Defined.
